(** * A calendar-negotiation chat agent: shallow embedding and properties

    The development embeds the negotiation core of the agent
    ([agente.py]) and the calendar tools it calls
    ([google_calendar_tools.py]).

    Modelling conventions.
    - A Python [str] is a list of Unicode code points; the digits of
      [isdigit] and of the [\d] of the follow-up filter are those of
      Unicode 14.0.
    - An aware [datetime] is a wall clock reading in minutes together with
      its UTC offset in minutes; the admissible year range of Python's
      [datetime] is not modelled.  An ISO 8601 string produced by
      [isoformat] is identified with the datetime it denotes
      ([fromisoformat] is its inverse on such strings).
    - The module-level dictionary [user_context_storage] is a finite map
      threaded through every handler, together with the list of outbound
      calls (calendar API, language model, chat transport) the handler
      makes, in the order it makes them.
    - Library functions whose tables are not part of the repository
      ([strptime], [int], [pytz] offsets, Unicode NFD) and the answers of
      the remote services are fields of an environment record [env];
      every statement holds for every environment.  A call to a remote
      service always returns: network and authentication failures are
      not modelled. *)

From Stdlib Require Import ZArith NArith Decimal DecimalNat String Ascii.
From stdpp Require Import base option list gmap fin_maps.

Local Open Scope Z_scope.

(** ** Python strings *)

Abbreviation char := N.
Abbreviation str := (list N).

(** An ASCII literal of the source as a list of code points. *)
Definition lit (s : string) : str :=
  List.map N_of_ascii (list_ascii_of_string s).

Definition is_ascii_digit (c : char) : bool :=
  ((48 <=? c) && (c <=? 57))%N.

(** Whether [c] lies in one of the closed ranges [rs]. *)
Definition in_ranges (rs : list (N * N)) (c : char) : bool :=
  existsb (fun r => (r.1 <=? c) && (c <=? r.2))%N rs.

(** The decimal digits (category Nd) of Unicode 14.0, the version of the
    tables of Python 3.11: the characters [\d] matches in a [str]
    pattern. *)
Definition decimal_ranges : list (N * N) :=
  [(48, 57); (1632, 1641); (1776, 1785); (1984, 1993); (2406, 2415);
   (2534, 2543); (2662, 2671); (2790, 2799); (2918, 2927); (3046, 3055);
   (3174, 3183); (3302, 3311); (3430, 3439); (3558, 3567); (3664, 3673);
   (3792, 3801); (3872, 3881); (4160, 4169); (4240, 4249); (6112, 6121);
   (6160, 6169); (6470, 6479); (6608, 6617); (6784, 6793); (6800, 6809);
   (6992, 7001); (7088, 7097); (7232, 7241); (7248, 7257); (42528, 42537);
   (43216, 43225); (43264, 43273); (43472, 43481); (43504, 43513);
   (43600, 43609); (44016, 44025); (65296, 65305); (66720, 66729);
   (68912, 68921); (69734, 69743); (69872, 69881); (69942, 69951);
   (70096, 70105); (70384, 70393); (70736, 70745); (70864, 70873);
   (71248, 71257); (71360, 71369); (71472, 71481); (71904, 71913);
   (72016, 72025); (72784, 72793); (73040, 73049); (73120, 73129);
   (92768, 92777); (92864, 92873); (93008, 93017); (120782, 120831);
   (123200, 123209); (123632, 123641); (125264, 125273);
   (130032, 130041)]%N.

(** The further characters for which [str.isdigit()] holds: superscript,
    subscript and enclosed digits and the like. *)
Definition other_digit_ranges : list (N * N) :=
  [(178, 179); (185, 185); (4969, 4977); (6618, 6618); (8304, 8304);
   (8308, 8313); (8320, 8329); (9312, 9320); (9332, 9340); (9352, 9360);
   (9450, 9450); (9461, 9469); (9471, 9471); (10102, 10110);
   (10112, 10120); (10122, 10130); (68160, 68163); (69216, 69224);
   (69714, 69722); (127232, 127242)]%N.

Definition is_decimal (c : char) : bool := in_ranges decimal_ranges c.

Definition is_digit_char (c : char) : bool :=
  in_ranges (decimal_ranges ++ other_digit_ranges) c.

(** [str.isdigit()]: true when the string is non-empty and made of digits. *)
Definition isdigit (s : str) : bool :=
  match s with
  | [] => false
  | _ => forallb is_digit_char s
  end.

(** The characters [str.strip()] removes: those for which [str.isspace()]
    holds. *)
Definition isspace (c : char) : bool :=
  (((9 <=? c) && (c <=? 13)) || ((28 <=? c) && (c <=? 32))
   || (c =? 133) || (c =? 160) || (c =? 5760)
   || ((8192 <=? c) && (c <=? 8202))
   || (c =? 8232) || (c =? 8233) || (c =? 8239) || (c =? 8287)
   || (c =? 12288))%N.

Fixpoint lstrip (s : str) : str :=
  match s with
  | [] => []
  | c :: rest => if isspace c then lstrip rest else s
  end.

Definition rstrip (s : str) : str := rev (lstrip (rev s)).

Definition strip (s : str) : str := rstrip (lstrip s).

(** [s.split(sep)] for a one-character separator. *)
Fixpoint split_on (sep : char) (s : str) : list str :=
  match s with
  | [] => [[]]
  | c :: rest =>
      if (c =? sep)%N then [] :: split_on sep rest
      else match split_on sep rest with
           | [] => [[c]]
           | w :: ws => (c :: w) :: ws
           end
  end.

Fixpoint str_of_uint (d : Decimal.uint) : str :=
  match d with
  | Nil => []
  | D0 d => 48%N :: str_of_uint d
  | D1 d => 49%N :: str_of_uint d
  | D2 d => 50%N :: str_of_uint d
  | D3 d => 51%N :: str_of_uint d
  | D4 d => 52%N :: str_of_uint d
  | D5 d => 53%N :: str_of_uint d
  | D6 d => 54%N :: str_of_uint d
  | D7 d => 55%N :: str_of_uint d
  | D8 d => 56%N :: str_of_uint d
  | D9 d => 57%N :: str_of_uint d
  end.

(** The decimal rendering [f"{n}"] of a non-negative integer. *)
Definition format_int (n : nat) : str := str_of_uint (Nat.to_uint n).

(** [s.encode('ascii', 'ignore').decode('utf-8')]: code points outside
    ASCII are dropped. *)
Definition encode_ascii_ignore (s : str) : str :=
  List.filter (fun c => (c <? 128)%N) s.

Definition lower_char (c : char) : char :=
  if ((65 <=? c) && (c <=? 90))%N then (c + 32)%N else c.

(** [str.lower()] on a string of ASCII characters. *)
Definition lower (s : str) : str := List.map lower_char s.

(** Python truthiness of [d.get(key)] for a string-valued key. *)
Definition truthy (o : option str) : bool :=
  match o with
  | Some (_ :: _) => true
  | _ => false
  end.

(** ** Aware datetimes *)

Record datetime := mk_datetime {
  wall : Z;        (* local wall clock, minutes *)
  utcoffset : Z    (* minutes east of UTC *)
}.

Global Instance datetime_eq_dec : EqDecision datetime.
Proof. solve_decision. Defined.

(** [dt + datetime.timedelta(minutes=m)]: wall clock arithmetic, the
    time zone information is kept.  Python raises [OverflowError] when
    the sum leaves the datetime range; the sum is modelled within the
    range, and the statements about sums made outside a [try] block
    assume that the sum does not exceed [MAX_WALL]. *)
Definition plus_minutes (dt : datetime) (m : Z) : datetime :=
  {| wall := wall dt + m; utcoffset := utcoffset dt |}.

(** [dt + datetime.timedelta(hours=1)] *)
Definition plus_one_hour (dt : datetime) : datetime := plus_minutes dt 60.

(** The absolute instant, in minutes of UTC. *)
Definition instant (dt : datetime) : Z := wall dt - utcoffset dt.

(** The wall clock of [datetime.max], 9999-12-31 23:59, in minutes
    since 1970-01-01 00:00. *)
Definition MAX_WALL : Z := 2932896 * 1440 + 1439.

(** [datetime.time(hora, minuto)] raises [ValueError] out of range. *)
Definition time_of (hora minuto : Z) : option Z :=
  if (0 <=? hora) && (hora <=? 23) && (0 <=? minuto) && (minuto <=? 59)
  then Some (hora * 60 + minuto)
  else None.

(** ** Stored negotiation context and outbound calls *)

(** The value stored under a chat id: a dictionary in which each of the
    four keys the program ever writes may be present or absent. *)
Record context_data := mk_context {
  action : option str;
  summary : option str;
  suggestions : option (gmap str datetime);
  chosen_time_iso : option datetime
}.

(** The entities dictionary of a classifier decision. *)
Record entidades := mk_entidades {
  titulo : option str;
  data : option str;
  hora : option str
}.

(** The decision dictionary decoded from the classifier's JSON answer,
    which the response schema makes an object: what [get] returns for
    the three keys the program reads ([None] for an absent key and for
    [null]), and whether it has any other key. *)
Record decision := mk_decision {
  d_action : option str;
  d_agendamento : option entidades;
  d_consulta : option str;
  (* the dictionary has a key that holds null or is none of the three *)
  d_outras_chaves : bool
}.

(** A formatted row of [obter_eventos_por_palavra_chave]. *)
Record evento := mk_evento { ev_titulo : str; ev_data_hora : str }.

(** The texts sent to the user, one constructor per message template of
    the source, with the values interpolated into it. *)
Inductive reply :=
| MsgBoasVindas
| MsgSemPalavraChave
| MsgEventosEncontrados (keyword : str) (eventos : list evento)
| MsgNenhumEvento (keyword : str)
| MsgErroAgendamento
| MsgAgendado (resumo : str) (data_alvo : Z) (inicio : datetime) (link : str)
| MsgOcupadoOpcoes (inicio : datetime) (opcoes : list (nat * datetime))
| MsgOcupadoSemOpcoes
| MsgErroVerificacao
| MsgLivre (inicio : datetime)
| MsgOcupadoVerificacaoOpcoes (inicio : datetime) (opcoes : list (nat * datetime))
| MsgOcupadoVerificacaoSemOpcoes (inicio : datetime)
| MsgAgendamentoConfirmado (summary : str) (inicio : datetime) (link : str)
| MsgPedirTitulo
| MsgOpcaoInvalida
| MsgNaoProcessou
| MsgNaoEntendi.

(** Calls leaving the process. *)
Inductive call :=
| Events_list (timeMin timeMax : datetime)
| Events_insert (summary : str) (start_time end_time : datetime)
| Events_query (q : str)
| Generate_content (texto : str)
| Send_message (chat_id : Z) (text : reply).

(** Library functions and remote services. *)
Record env := mk_env {
  (* datetime.datetime.strptime(s, '%Y-%m-%d').date(), as the number of
     days since 1970-01-01 *)
  strptime_date : str -> option Z;
  (* int(s) *)
  int_of_str : str -> option Z;
  (* UTC offset pytz's localize gives a naive wall clock time in
     America/Sao_Paulo; None when localize raises, as it does for the
     first and the last day of the datetime range *)
  localize_offset : Z -> option Z;
  (* unicodedata.normalize('NFD', s) *)
  nfd : str -> str;
  (* whether events().list(timeMin, timeMax) has no items *)
  no_events : datetime -> datetime -> bool;
  (* htmlLink of the event events().insert creates *)
  html_link : str -> datetime -> datetime -> str;
  (* formatted items of events().list(q=...) *)
  query_rows : str -> list evento;
  (* json.loads of the model's answer; None when the call raises *)
  gemini : str -> option decision
}.

(** ** The handler monad: storage, exceptions and the call log *)

Inductive exn := KeyError (key : str).

Inductive result (A : Type) :=
| Ok (a : A)
| Raise (e : exn).
Arguments Ok {A} a.
Arguments Raise {A} e.

Definition M (A : Type) : Type :=
  gmap Z context_data -> result A * gmap Z context_data * list call.

Global Instance M_ret : MRet M :=
  fun A a st => (Ok a, st, []).

Global Instance M_bind : MBind M :=
  fun A B f m st =>
    match m st with
    | (Ok a, st', l) =>
        match f a st' with
        | (r, st'', l') => (r, st'', l ++ l')
        end
    | (Raise e, st', l) => (Raise e, st', l)
    end.

Definition raise {A} (e : exn) : M A := fun st => (Raise e, st, []).

Definition emit (c : call) : M unit := fun st => (Ok tt, st, [c]).

(** [user_context_storage.get(chat_id)] *)
Definition storage_get (chat_id : Z) : M (option context_data) :=
  fun st => (Ok (st !! chat_id), st, []).

(** [user_context_storage[chat_id] = ctx] *)
Definition storage_set (chat_id : Z) (ctx : context_data) : M unit :=
  fun st => (Ok tt, <[chat_id := ctx]> st, []).

(** [del user_context_storage[chat_id]] *)
Definition storage_del (chat_id : Z) : M unit :=
  fun st => (Ok tt, delete chat_id st, []).

(** [await context.bot.send_message(chat_id=chat_id, text=text)] *)
Definition send_message (chat_id : Z) (text : reply) : M unit :=
  emit (Send_message chat_id text).

(** ** google_calendar_tools.py *)

Definition normalize_keyword (E : env) (keyword : str) : str :=
  lower (encode_ascii_ignore (nfd E keyword)).

Definition verificar_disponibilidade (E : env)
    (start_time_iso end_time_iso : datetime) : M bool :=
  _ ← emit (Events_list start_time_iso end_time_iso);
  mret (no_events E start_time_iso end_time_iso).

Definition criar_evento (E : env) (summary : str)
    (start_time_iso end_time_iso : datetime) : M str :=
  _ ← emit (Events_insert summary start_time_iso end_time_iso);
  mret (html_link E summary start_time_iso end_time_iso).

(** The body of the [for offset in [30, 60, 90]] loop, with the list
    accumulated so far. *)
Fixpoint sugerir_loop (E : env) (start_time_dt : datetime)
    (offsets : list Z) (suggestions_iso : list datetime)
    : M (list datetime) :=
  match offsets with
  | [] => mret suggestions_iso
  | offset :: rest =>
      let new_start_time := plus_minutes start_time_dt offset in
      let new_end_time := plus_one_hour new_start_time in
      livre ← verificar_disponibilidade E new_start_time new_end_time;
      sugerir_loop E start_time_dt rest
        (if livre : bool then suggestions_iso ++ [new_start_time]
         else suggestions_iso)
  end.

Definition sugerir_horarios (E : env)
    (start_time_iso end_time_iso : datetime) : M (list datetime) :=
  sugerir_loop E start_time_iso [30; 60; 90] [].

(** [query_rows E q] stands for the rows built from the answer to the
    search for [q]; building them from the raw events, which fails on an
    event without a title, is [processar_resposta] below. *)
Definition obter_eventos_por_palavra_chave (E : env) (keyword : str)
    : M (list evento) :=
  let clean_keyword := normalize_keyword E keyword in
  _ ← emit (Events_query clean_keyword);
  mret (query_rows E clean_keyword).

(** ** agente.py *)

Definition AWAITING_TIME_SELECTION : str :=
  Eval vm_compute in lit "awaiting_time_selection".
Definition AWAITING_TITLE : str := Eval vm_compute in lit "awaiting_title".
Definition AGENDAR : str := Eval vm_compute in lit "agendar".
Definition VERIFICAR : str := Eval vm_compute in lit "verificar".
Definition CONSULTAR : str := Eval vm_compute in lit "consultar".
Definition KEY_SUGGESTIONS : str := Eval vm_compute in lit "suggestions".
Definition KEY_CHOSEN_TIME_ISO : str :=
  Eval vm_compute in lit "chosen_time_iso".

(** An incoming Telegram update carrying a message. [bot_command] is the
    command name when the text starts with a bot command entity. *)
Record update := mk_update {
  effective_chat_id : Z;
  message_text : str;
  bot_command : option str
}.

Definition analisar_e_decidir_acao_com_gemini (E : env) (texto : str)
    : M (option decision) :=
  _ ← emit (Generate_content texto);
  mret (gemini E texto).

Definition execute_consulta (E : env) (chat_id : Z) (keyword : option str)
    : M unit :=
  match keyword with
  | Some ((_ :: _) as kw) =>
      eventos ← obter_eventos_por_palavra_chave E kw;
      match eventos with
      | _ :: _ => send_message chat_id (MsgEventosEncontrados kw eventos)
      | [] => send_message chat_id (MsgNenhumEvento kw)
      end
  | _ => send_message chat_id MsgSemPalavraChave
  end.

(** [hora, minuto = map(int, entidades["hora"].split(':'))] *)
Definition parse_hora (E : env) (s : str) : option (Z * Z) :=
  match split_on 58%N s with
  | [h; m] =>
      match int_of_str E h, int_of_str E m with
      | Some hora, Some minuto => Some (hora, minuto)
      | _, _ => None
      end
  | _ => None
  end.

(** Steps 1 and 2 of the [try] blocks, after the check of the required
    fields: the start of the interval and its end one hour later. [None]
    when a step raises; the addition of the hour raises [OverflowError]
    past [datetime.max]. *)
Definition montar_intervalo (E : env) (ent : entidades)
    : option (Z * datetime * datetime) :=
  data_alvo_str ← data ent;
  data_alvo ← strptime_date E (strip data_alvo_str);
  hora_str ← hora ent;
  hm ← parse_hora E hora_str;
  t ← time_of hm.1 hm.2;
  let naive := data_alvo * 1440 + t in
  offset ← localize_offset E naive;
  let inicio_com_fuso := {| wall := naive; utcoffset := offset |} in
  let fim_com_fuso := plus_one_hour inicio_com_fuso in
  if wall fim_com_fuso <=? MAX_WALL
  then Some (data_alvo, inicio_com_fuso, fim_com_fuso)
  else None.

(** The [try] block of [execute_agendamento]; [None] is the [except]
    branch. *)
Definition preparar_agendamento (E : env) (ents : option entidades)
    : option (str * Z * datetime * datetime) :=
  match ents with
  | None => None
  | Some ent =>
      if negb (truthy (titulo ent)) || negb (truthy (hora ent)) then None
      else
        resumo ← titulo ent;
        i ← montar_intervalo E ent;
        Some (resumo, i.1.1, i.1.2, i.2)
  end.

(** The [try] block of [execute_verificacao]. *)
Definition preparar_verificacao (E : env) (ents : option entidades)
    : option (datetime * datetime) :=
  match ents with
  | None => None
  | Some ent =>
      if negb (truthy (data ent)) || negb (truthy (hora ent)) then None
      else
        i ← montar_intervalo E ent;
        Some (i.1.2, i.2)
  end.

(** The loop [for i, iso_time in enumerate(sugestoes)], started at index
    [i] with the dictionary and the list built so far. *)
Fixpoint numerar (i : nat) (sugestoes : list datetime)
    (suggestion_map : gmap str datetime)
    (numbered_suggestions : list (nat * datetime))
    : gmap str datetime * list (nat * datetime) :=
  match sugestoes with
  | [] => (suggestion_map, numbered_suggestions)
  | iso_time :: rest =>
      numerar (S i) rest
        (<[format_int (i + 1) := iso_time]> suggestion_map)
        (numbered_suggestions ++ [((i + 1)%nat, iso_time)])
  end.

Definition execute_agendamento (E : env) (chat_id : Z)
    (ents : option entidades) : M unit :=
  match preparar_agendamento E ents with
  | None => send_message chat_id MsgErroAgendamento
  | Some (resumo, data_alvo, inicio_iso, fim_iso) =>
      disponivel ← verificar_disponibilidade E inicio_iso fim_iso;
      if disponivel : bool then
        link_evento ← criar_evento E resumo inicio_iso fim_iso;
        send_message chat_id
          (MsgAgendado resumo data_alvo inicio_iso link_evento)
      else
        sugestoes ← sugerir_horarios E inicio_iso fim_iso;
        match sugestoes with
        | _ :: _ =>
            let ns := numerar 0 sugestoes ∅ [] in
            _ ← storage_set chat_id
                  {| action := None; summary := Some resumo;
                     suggestions := Some ns.1; chosen_time_iso := None |};
            send_message chat_id (MsgOcupadoOpcoes inicio_iso ns.2)
        | [] => send_message chat_id MsgOcupadoSemOpcoes
        end
  end.

Definition execute_verificacao (E : env) (chat_id : Z)
    (ents : option entidades) : M unit :=
  match preparar_verificacao E ents with
  | None => send_message chat_id MsgErroVerificacao
  | Some (inicio_iso, fim_iso) =>
      disponivel ← verificar_disponibilidade E inicio_iso fim_iso;
      if disponivel : bool then send_message chat_id (MsgLivre inicio_iso)
      else
        sugestoes ← sugerir_horarios E inicio_iso fim_iso;
        match sugestoes with
        | _ :: _ =>
            let ns := numerar 0 sugestoes ∅ [] in
            _ ← storage_set chat_id
                  {| action := Some AWAITING_TIME_SELECTION; summary := None;
                     suggestions := Some ns.1; chosen_time_iso := None |};
            send_message chat_id (MsgOcupadoVerificacaoOpcoes inicio_iso ns.2)
        | [] =>
            send_message chat_id (MsgOcupadoVerificacaoSemOpcoes inicio_iso)
        end
  end.

Definition iniciar_handler (E : env) (u : update) : M (option bool) :=
  _ ← send_message (effective_chat_id u) MsgBoasVindas;
  mret None.

Definition handle_follow_up (E : env) (u : update) : M (option bool) :=
  let chat_id := effective_chat_id u in
  let user_response := strip (message_text u) in
  stored ← storage_get chat_id;
  match stored with
  | None => mret (Some false)
  | Some context_data =>
      if bool_decide (action context_data = Some AWAITING_TIME_SELECTION)
         && isdigit user_response
      then
        match suggestions context_data with
        | None => raise (KeyError KEY_SUGGESTIONS)
        | Some sugg =>
            match sugg !! user_response with
            | Some chosen_iso_time =>
                match summary context_data with
                | Some resumo =>
                    let chosen_end_dt := plus_one_hour chosen_iso_time in
                    link ← criar_evento E resumo chosen_iso_time chosen_end_dt;
                    _ ← storage_del chat_id;
                    _ ← send_message chat_id
                          (MsgAgendamentoConfirmado resumo chosen_iso_time link);
                    mret (Some true)
                | None =>
                    _ ← storage_set chat_id
                          {| action := Some AWAITING_TITLE; summary := None;
                             suggestions := None;
                             chosen_time_iso := Some chosen_iso_time |};
                    _ ← send_message chat_id MsgPedirTitulo;
                    mret (Some true)
                end
            | None =>
                _ ← send_message chat_id MsgOpcaoInvalida;
                mret (Some true)
            end
        end
      else mret (Some false)
  end.

(** Python truthiness of the decision dictionary: [None] and the empty
    dictionary are false. *)
Definition decision_truthy (d : option decision) : bool :=
  match d with
  | None => false
  | Some d =>
      match d_action d, d_agendamento d, d_consulta d with
      | None, None, None => d_outras_chaves d
      | _, _, _ => true
      end
  end.

(** Part 2 of [handle_messages]: classification and dispatch on the
    action. *)
Definition decidir_e_executar (E : env) (chat_id : Z) (full_message : str)
    : M unit :=
  dec ← analisar_e_decidir_acao_com_gemini E full_message;
  match dec with
  | Some d =>
      if negb (decision_truthy dec) then send_message chat_id MsgNaoProcessou
      else if bool_decide (d_action d = Some AGENDAR) then
        execute_agendamento E chat_id (d_agendamento d)
      else if bool_decide (d_action d = Some VERIFICAR) then
        execute_verificacao E chat_id (d_agendamento d)
      else if bool_decide (d_action d = Some CONSULTAR) then
        execute_consulta E chat_id (d_consulta d)
      else send_message chat_id MsgNaoEntendi
  | None => send_message chat_id MsgNaoProcessou
  end.

(** Part 1 of [handle_messages]: a stored context whose action is
    ['awaiting_title'] takes the whole message as the title. *)
Definition finalizar_com_titulo (E : env) (chat_id : Z) (full_message : str)
    (context_data : context_data) : M unit :=
  let resumo := full_message in
  match chosen_time_iso context_data with
  | None => raise (KeyError KEY_CHOSEN_TIME_ISO)
  | Some chosen_iso_time =>
      let chosen_end_dt := plus_one_hour chosen_iso_time in
      link ← criar_evento E resumo chosen_iso_time chosen_end_dt;
      _ ← storage_del chat_id;
      send_message chat_id
        (MsgAgendamentoConfirmado resumo chosen_iso_time link)
  end.

Definition handle_messages (E : env) (u : update) : M (option bool) :=
  let full_message := message_text u in
  let chat_id := effective_chat_id u in
  stored ← storage_get chat_id;
  _ ← match stored with
      | Some context_data =>
          if bool_decide (action context_data = Some AWAITING_TITLE)
          then finalizar_com_titulo E chat_id full_message context_data
          else decidir_e_executar E chat_id full_message
      | None => decidir_e_executar E chat_id full_message
      end;
  mret None.

(** ** The handler registration of [__main__] and the dispatch of an update *)

(** [re.search(r'^\d+$', s)] after a first digit: digits up to the end of
    the string, or up to a line feed that ends it. *)
Fixpoint digits_to_end (s : str) : bool :=
  match s with
  | [] => true
  | c :: rest =>
      match rest with
      | [] => is_decimal c || (c =? 10)%N
      | _ :: _ => is_decimal c && digits_to_end rest
      end
  end.

(** [filters.Regex(r'^\d+$')] on the message text. *)
Definition regex_digits (s : str) : bool :=
  match s with
  | [] => false
  | c :: rest => is_decimal c && digits_to_end rest
  end.

(** [filters.COMMAND] *)
Definition filter_command (u : update) : bool :=
  match bot_command u with
  | Some _ => true
  | None => false
  end.

(** [filters.TEXT] *)
Definition filter_text (u : update) : bool :=
  match message_text u with
  | [] => false
  | _ :: _ => true
  end.

Record handler := mk_handler {
  check_update : update -> bool;
  callback : env -> update -> M (option bool)
}.

(** The three [app.add_handler] calls, all in the default group, in
    registration order.  The command handler compares the lower-cased
    command name. *)
Definition handlers : list handler :=
  [ mk_handler
      (fun u => bool_decide (lower <$> bot_command u = Some (lit "start")))
      iniciar_handler;
    mk_handler
      (fun u => regex_digits (message_text u) && negb (filter_command u))
      handle_follow_up;
    mk_handler
      (fun u => filter_text u && negb (filter_command u))
      handle_messages ].

(** Dispatch inside one handler group as the transport library does it:
    the first handler whose filter accepts the update runs, its return
    value is discarded, and no further handler of the group sees the
    update. *)
Fixpoint process_group (E : env) (hs : list handler) (u : update) : M unit :=
  match hs with
  | [] => mret tt
  | h :: rest =>
      if check_update h u then (_ ← callback h E u; mret tt)
      else process_group E rest u
  end.

(** One update processed against the storage: the storage afterwards and
    the calls made.  An exception escaping a callback is logged by the
    library and the storage keeps what was written before it. *)
Definition process_update (E : env) (u : update) (st : gmap Z context_data)
    : gmap Z context_data * list call :=
  let r := process_group E handlers u st in (r.1.2, r.2).

(** The dispatch that the comments of [handle_follow_up] describe
    (a callback returning [False] passes the update to the next
    handler).  It is not what the library does; it is kept to tell apart
    what follows from the handlers and what follows from the dispatch. *)
Fixpoint process_group_passing (E : env) (hs : list handler) (u : update)
    : M unit :=
  match hs with
  | [] => mret tt
  | h :: rest =>
      if check_update h u then
        r ← callback h E u;
        match r with
        | Some false => process_group_passing E rest u
        | _ => mret tt
        end
      else process_group_passing E rest u
  end.

Definition process_update_passing (E : env) (u : update)
    (st : gmap Z context_data) : gmap Z context_data * list call :=
  let r := process_group_passing E handlers u st in (r.1.2, r.2).

(** A plain text message from a chat. *)
Definition text_update (chat_id : Z) (text : str) : update :=
  {| effective_chat_id := chat_id; message_text := text;
     bot_command := None |}.

(** A sequence of updates processed in arrival order. *)
Fixpoint conversa (E : env) (us : list update) (st : gmap Z context_data)
    : gmap Z context_data * list call :=
  match us with
  | [] => (st, [])
  | u :: rest =>
      let r := process_update E u st in
      let r' := conversa E rest r.1 in
      (r'.1, r.2 ++ r'.2)
  end.

(** Storages the program can be in: the empty start storage and whatever
    processing an update leaves, the services answering each update in
    any way. *)
Inductive reachable : gmap Z context_data -> Prop :=
| reachable_start : reachable ∅
| reachable_step E st u :
    reachable st -> reachable (process_update E u st).1.

(** ** The negotiation states of the specification and their stored form *)

Inductive negotiation_state :=
| Idle
| AwaitingSlotSelection (resumo : option str) (sugg : gmap str datetime)
| AwaitingTitle (chosen_slot : datetime).

(** The dictionary the program stores for each state: the one written by
    [execute_agendamento] when the title is known, by
    [execute_verificacao] when it is not, and by [handle_follow_up] once a
    slot is chosen.  [Idle] is the absence of the key. *)
Definition stored_as (n : negotiation_state) : option context_data :=
  match n with
  | Idle => None
  | AwaitingSlotSelection (Some resumo) sugg =>
      Some {| action := None; summary := Some resumo;
              suggestions := Some sugg; chosen_time_iso := None |}
  | AwaitingSlotSelection None sugg =>
      Some {| action := Some AWAITING_TIME_SELECTION; summary := None;
              suggestions := Some sugg; chosen_time_iso := None |}
  | AwaitingTitle chosen =>
      Some {| action := Some AWAITING_TITLE; summary := None;
              suggestions := None; chosen_time_iso := Some chosen |}
  end.

(** A call that names an interval spans exactly sixty minutes. *)
Definition one_hour_call (c : call) : Prop :=
  match c with
  | Events_list s e => e = plus_one_hour s /\ instant e = instant s + 60
  | Events_insert _ s e => e = plus_one_hour s /\ instant e = instant s + 60
  | _ => True
  end.

Definition is_insert (c : call) : bool :=
  match c with
  | Events_insert _ _ _ => true
  | _ => false
  end.

Definition is_send (c : call) : bool :=
  match c with
  | Send_message _ _ => true
  | _ => false
  end.

(** The three candidate starts of [sugerir_horarios], in loop order. *)
Definition candidatos (start_time : datetime) : list datetime :=
  [plus_minutes start_time 30; plus_minutes start_time 60;
   plus_minutes start_time 90].

(** Whether the calendar has no event in the hour starting at [s]. *)
Definition slot_free (E : env) (s : datetime) : bool :=
  no_events E s (plus_one_hour s).

(** The availability query of the loop body for one offset. *)
Definition check_of (start : datetime) (offset : Z) : call :=
  Events_list (plus_minutes start offset)
              (plus_one_hour (plus_minutes start offset)).

(** Every call of a computation that names an interval names a
    one-hour interval, from any storage. *)
Definition hourly {A} (m : M A) : Prop :=
  forall st, Forall one_hour_call (m st).2.

(** Every stored context is the stored form of a negotiation state. *)
Definition well_formed (st : gmap Z context_data) : Prop :=
  forall chat c, st !! chat = Some c -> exists n, stored_as n = Some c.

(** A computation that keeps the storage well formed. *)
Definition preserves {A} (m : M A) : Prop :=
  forall st, well_formed st -> well_formed (m st).1.2.

(** The two kinds of request that name a date and a time, and the
    function [handle_messages] runs for each. *)
Inductive pedido := Agendar | Verificar.

Definition executar (E : env) (p : pedido)
    : Z -> option entidades -> M unit :=
  match p with
  | Agendar => execute_agendamento E
  | Verificar => execute_verificacao E
  end.

Definition mensagem_de_erro (p : pedido) : reply :=
  match p with
  | Agendar => MsgErroAgendamento
  | Verificar => MsgErroVerificacao
  end.

(** A field the request needs is missing or empty. *)
Definition campos_ausentes (p : pedido) (ent : entidades) : Prop :=
  match p with
  | Agendar =>
      truthy (titulo ent) = false \/ truthy (hora ent) = false
      \/ data ent = None
  | Verificar => truthy (data ent) = false \/ truthy (hora ent) = false
  end.

(** The date does not parse, the time is not two integers around a
    colon, or they are not an hour and a minute of the day. *)
Definition data_hora_invalida (E : env) (ent : entidades) : Prop :=
  (exists d, data ent = Some d /\ strptime_date E (strip d) = None)
  \/ (exists h, hora ent = Some h /\ parse_hora E h = None)
  \/ (exists h hh mm, hora ent = Some h /\ parse_hora E h = Some (hh, mm)
        /\ ~ (0 <= hh <= 23 /\ 0 <= mm <= 59)).

(** The date and the time are valid but no interval is built: [localize]
    raises, or the end of the hour passes [datetime.max]. *)
Definition intervalo_irrepresentavel (E : env) (ent : entidades) : Prop :=
  exists d dia h hh mm t,
    data ent = Some d /\ strptime_date E (strip d) = Some dia
    /\ hora ent = Some h /\ parse_hora E h = Some (hh, mm)
    /\ time_of hh mm = Some t
    /\ match localize_offset E (dia * 1440 + t) with
       | None => True
       | Some _ => MAX_WALL < dia * 1440 + t + 60
       end.

Definition pedido_invalido (E : env) (p : pedido) (ents : option entidades)
    : Prop :=
  match ents with
  | None => True
  | Some ent => campos_ausentes p ent \/ data_hora_invalida E ent
  end.

(** No character of [s] is outside ASCII or an upper-case letter. *)
Definition ascii_lower_case (s : str) : Prop :=
  Forall (fun c => (c < 128)%N /\ ~ (65 <= c <= 90)%N) s.

(** ** A concrete environment for the scenarios *)

Module Demo.

Definition digit_value (c : char) : option Z :=
  if is_ascii_digit c then Some (Z.of_N c - 48) else None.

Fixpoint digits_value (acc : Z) (s : str) : option Z :=
  match s with
  | [] => Some acc
  | c :: rest =>
      match digit_value c with
      | Some d => digits_value (10 * acc + d) rest
      | None => None
      end
  end.

(** [int] on plain ASCII digit strings. *)
Definition int_ascii (s : str) : option Z :=
  match s with
  | [] => None
  | _ :: _ => digits_value 0 s
  end.

(** Day number of a proleptic Gregorian date, day 0 being 1970-01-01. *)
Definition days_from_civil (y m d : Z) : Z :=
  let y' := if m <=? 2 then y - 1 else y in
  let era := y' / 400 in
  let yoe := y' - era * 400 in
  let mp := (m + 9) mod 12 in
  let doy := (153 * mp + 2) / 5 + d - 1 in
  let doe := yoe * 365 + yoe / 4 - yoe / 100 + doy in
  era * 146097 + doe - 719468.

(** [strptime(s, '%Y-%m-%d')] on the zero-padded form [YYYY-MM-DD]. *)
Definition strptime_padded (s : str) : option Z :=
  match split_on 45%N s with
  | [ys; ms; ds] =>
      if (length ys =? 4)%nat && (length ms =? 2)%nat && (length ds =? 2)%nat
      then
        y ← int_ascii ys; m ← int_ascii ms; d ← int_ascii ds;
        if (1 <=? m) && (m <=? 12) && (1 <=? d) && (d <=? 31)
        then Some (days_from_civil y m d) else None
      else None
  | _ => None
  end.

(** Canonical decomposition of the three accented letters the examples
    use; other characters are left alone. *)
Definition nfd_char (c : char) : str :=
  if (c =? 231)%N then [99%N; 807%N]        (* c with cedilla *)
  else if (c =? 233)%N then [101%N; 769%N]  (* e with acute *)
  else if (c =? 227)%N then [97%N; 771%N]   (* a with tilde *)
  else [c].

Definition nfd_demo (s : str) : str := concat (List.map nfd_char s).

(** A local wall clock reading at UTC-3. *)
Definition local (y m d hh mm : Z) : datetime :=
  {| wall := days_from_civil y m d * 1440 + hh * 60 + mm;
     utcoffset := -180 |}.

(** The calendar holds the listed events, as pairs of instants; a query
    finds no events when none of them overlaps the interval. *)
Definition no_events_in (agenda : list (Z * Z)) (s e : datetime) : bool :=
  forallb (fun ev => (ev.2 <=? instant s) || (instant e <=? ev.1)) agenda.

Definition LINK : str := Eval vm_compute in lit "https://calendar/evt".

Definition entidades_de (t d h : string) : entidades :=
  {| titulo := Some (lit t); data := Some (lit d); hora := Some (lit h) |}.

Definition BOOK_LUNCH : str :=
  Eval vm_compute in lit "book lunch at 13:00 on 2025-03-10".
Definition AM_I_FREE : str :=
  Eval vm_compute in lit "am I free at 13:00 on 2025-03-10?".
Definition BOOK_BAD_DATE : str :=
  Eval vm_compute in lit "book lunch at 13:00 on the tenth".

(** The classifier's answers to the messages of the scenarios. *)
Definition gemini_demo (texto : str) : option decision :=
  if bool_decide (texto = BOOK_LUNCH) then
    Some {| d_action := Some AGENDAR;
            d_agendamento := Some (entidades_de "lunch" "2025-03-10" "13:00");
            d_consulta := None; d_outras_chaves := false |}
  else if bool_decide (texto = AM_I_FREE) then
    Some {| d_action := Some VERIFICAR;
            d_agendamento :=
              Some {| titulo := None; data := Some (lit "2025-03-10");
                      hora := Some (lit "13:00") |};
            d_consulta := None; d_outras_chaves := false |}
  else if bool_decide (texto = BOOK_BAD_DATE) then
    Some {| d_action := Some AGENDAR;
            d_agendamento := Some (entidades_de "lunch" "the tenth" "13:00");
            d_consulta := None; d_outras_chaves := false |}
  else None.

Definition demo_env (agenda : list (Z * Z)) : env :=
  {| strptime_date := strptime_padded;
     int_of_str := int_ascii;
     localize_offset := fun _ => Some (-180);
     nfd := nfd_demo;
     no_events := no_events_in agenda;
     html_link := fun _ _ _ => LINK;
     query_rows := fun _ => [];
     gemini := gemini_demo |}.

(** An empty calendar. *)
Definition livre : env := demo_env [].

(** One event on 2025-03-10 from 13:00 to 14:00 local time: the slots
    starting at 13:00 and 13:30 are busy, those at 14:00 and 14:30 free. *)
Definition ocupado : env :=
  demo_env [(instant (local 2025 3 10 13 0), instant (local 2025 3 10 14 0))].

Definition chat : Z := 42.

End Demo.

(** ** Observations on the calls and the storage of a computation *)

Definition is_generate (c : call) : bool :=
  match c with
  | Generate_content _ => true
  | _ => false
  end.

Definition is_calendar (c : call) : bool :=
  match c with
  | Events_list _ _ | Events_insert _ _ _ | Events_query _ => true
  | _ => false
  end.

(** No call of the computation satisfies [p]. *)
Definition quiet (p : call -> bool) {A} (m : M A) : Prop :=
  forall st, List.filter p (m st).2 = [].

(** The computation creates at most [n] events. *)
Definition inserts_at_most (n : nat) {A} (m : M A) : Prop :=
  forall st, (length (List.filter is_insert (m st).2) <= n)%nat.

(** The computation touches the storage of [chat] only. *)
Definition frame (chat : Z) {A} (m : M A) : Prop :=
  forall st chat', chat' <> chat -> (m st).1.2 !! chat' = st !! chat'.

(** Every context found in the storage afterwards was there before or
    satisfies [P]. *)
Definition writes_only (P : context_data -> Prop) {A} (m : M A) : Prop :=
  forall st chat c,
    (m st).1.2 !! chat = Some c -> st !! chat = Some c \/ P c.

(** Unless it raises, the computation sends exactly one message, to
    [chat]. *)
Definition replies_once (chat : Z) {A} (m : M A) : Prop :=
  forall st,
    match (m st).1.1 with
    | Ok _ => exists r, List.filter is_send (m st).2 = [Send_message chat r]
    | Raise _ => True
    end.

(** The computation does not raise from a well-formed storage. *)
Definition safe {A} (m : M A) : Prop :=
  forall st, well_formed st -> exists a, (m st).1.1 = Ok a.

(** A context as the two request functions and the follow-up handler
    write it: a chosen start awaiting its title, or the free candidates
    of some start under some calendar answers, numbered from 1. *)
Definition numbered_context (c : context_data) : Prop :=
  (exists chosen, Some c = stored_as (AwaitingTitle chosen))
  \/ (exists E inicio resumo,
        List.filter (slot_free E) (candidatos inicio) <> []
        /\ Some c =
           stored_as (AwaitingSlotSelection resumo
             (numerar 0 (List.filter (slot_free E) (candidatos inicio))
                ∅ []).1)).

(** ** Credentials: [get_calendar_service] and [autenticacao.main] *)

(** What the program reads of a [Credentials] object. *)
Record credentials := mk_credentials {
  cred_valid : bool;
  cred_expired : bool;
  cred_refresh_token : option str;
  cred_to_json : str
}.

(** The steps with an effect outside the process, in order. *)
Inductive auth_call :=
| Refresh (creds : credentials)
| Run_local_server
| Write_token (content : str)
| Build (creds : credentials).

Inductive auth_error := TokenFileError | RefreshError | FlowError.

Inductive auth_result (A : Type) :=
| AuthOk (a : A)
| AuthRaise (e : auth_error).
Arguments AuthOk {A} a.
Arguments AuthRaise {A} e.

(** The library calls of the credential flow; [None] when the call
    raises. *)
Record auth_env := mk_auth_env {
  (* Credentials.from_authorized_user_file on the content of token.json *)
  from_authorized_user_file : str -> option credentials;
  (* the credentials after creds.refresh(Request()) *)
  refresh : credentials -> option credentials;
  (* InstalledAppFlow.from_client_secrets_file(...).run_local_server(port=0) *)
  run_local_server : option credentials
}.

(** [get_calendar_service()], on the content of [token.json] ([None] when
    the file does not exist): the credentials the service is built with,
    the content of the file afterwards, and the steps taken. *)
Definition get_calendar_service (A : auth_env) (token_json : option str)
    : auth_result credentials * option str * list auth_call :=
  let loaded :=
    match token_json with
    | Some content =>
        match from_authorized_user_file A content with
        | Some creds => AuthOk (Some creds)
        | None => AuthRaise TokenFileError
        end
    | None => AuthOk None
    end in
  match loaded with
  | AuthRaise e => (AuthRaise e, token_json, [])
  | AuthOk (Some creds) =>
      if cred_valid creds then (AuthOk creds, token_json, [Build creds])
      else if cred_expired creds && truthy (cred_refresh_token creds) then
        match refresh A creds with
        | Some creds' =>
            (AuthOk creds', Some (cred_to_json creds'),
             [Refresh creds; Write_token (cred_to_json creds'); Build creds'])
        | None => (AuthRaise RefreshError, token_json, [Refresh creds])
        end
      else
        match run_local_server A with
        | Some creds' =>
            (AuthOk creds', Some (cred_to_json creds'),
             [Run_local_server; Write_token (cred_to_json creds');
              Build creds'])
        | None => (AuthRaise FlowError, token_json, [Run_local_server])
        end
  | AuthOk None =>
      match run_local_server A with
      | Some creds' =>
          (AuthOk creds', Some (cred_to_json creds'),
           [Run_local_server; Write_token (cred_to_json creds');
            Build creds'])
      | None => (AuthRaise FlowError, token_json, [Run_local_server])
      end
  end.

(** [main()] of [autenticacao.py]: the same steps without the final
    [build]; it returns nothing. *)
Definition autenticacao_main (A : auth_env) (token_json : option str)
    : auth_result unit * option str * list auth_call :=
  let loaded :=
    match token_json with
    | Some content =>
        match from_authorized_user_file A content with
        | Some creds => AuthOk (Some creds)
        | None => AuthRaise TokenFileError
        end
    | None => AuthOk None
    end in
  match loaded with
  | AuthRaise e => (AuthRaise e, token_json, [])
  | AuthOk (Some creds) =>
      if cred_valid creds then (AuthOk tt, token_json, [])
      else if cred_expired creds && truthy (cred_refresh_token creds) then
        match refresh A creds with
        | Some creds' =>
            (AuthOk tt, Some (cred_to_json creds'),
             [Refresh creds; Write_token (cred_to_json creds')])
        | None => (AuthRaise RefreshError, token_json, [Refresh creds])
        end
      else
        match run_local_server A with
        | Some creds' =>
            (AuthOk tt, Some (cred_to_json creds'),
             [Run_local_server; Write_token (cred_to_json creds')])
        | None => (AuthRaise FlowError, token_json, [Run_local_server])
        end
  | AuthOk None =>
      match run_local_server A with
      | Some creds' =>
          (AuthOk tt, Some (cred_to_json creds'),
           [Run_local_server; Write_token (cred_to_json creds')])
      | None => (AuthRaise FlowError, token_json, [Run_local_server])
      end
  end.

Definition is_build (c : auth_call) : bool :=
  match c with
  | Build _ => true
  | _ => false
  end.

Definition is_write (c : auth_call) : bool :=
  match c with
  | Write_token _ => true
  | _ => false
  end.

(** ** [format_datetime_for_query] *)

(** The fields of a [datetime.datetime] that the function reads or
    resets, and its UTC offset when it is aware. *)
Record py_datetime := mk_py_datetime {
  dt_year : N;
  dt_month : N;
  dt_day : N;
  dt_hour : N;
  dt_minute : N;
  dt_second : N;
  dt_microsecond : N;
  dt_utcoffset : option Z
}.

(** [dt.replace(microsecond=us)] *)
Definition replace_microsecond (dt : py_datetime) (us : N) : py_datetime :=
  {| dt_year := dt_year dt; dt_month := dt_month dt; dt_day := dt_day dt;
     dt_hour := dt_hour dt; dt_minute := dt_minute dt;
     dt_second := dt_second dt; dt_microsecond := us;
     dt_utcoffset := dt_utcoffset dt |}.

(** The two-digit directives [%m %d %H %M %S]. *)
Definition pad2 (n : N) : str :=
  if (n <? 10)%N then 48%N :: format_int (N.to_nat n)
  else format_int (N.to_nat n).

(** [dt.strftime('%Y-%m-%dT%H:%M:%S')]; the year is written without
    padding, which is what every platform does from the year 1000 on. *)
Definition strftime_seconds (dt : py_datetime) : str :=
  format_int (N.to_nat (dt_year dt)) ++ [45%N] ++ pad2 (dt_month dt)
  ++ [45%N]
  ++ pad2 (dt_day dt) ++ [84%N] ++ pad2 (dt_hour dt) ++ [58%N]
  ++ pad2 (dt_minute dt) ++ [58%N] ++ pad2 (dt_second dt).

Definition format_datetime_for_query (dt_object : py_datetime) : str :=
  let dt_truncated := replace_microsecond dt_object 0%N in
  strftime_seconds dt_truncated ++ [90%N].

(** The field ranges of a [datetime] from the year 1000 on. *)
Definition in_range (dt : py_datetime) : Prop :=
  (1000 <= dt_year dt <= 9999 /\ dt_month dt <= 12 /\ dt_day dt <= 31
   /\ dt_hour dt <= 23 /\ dt_minute dt <= 59 /\ dt_second dt <= 59)%N.

(** ** The formatting loop of [obter_eventos_por_palavra_chave] *)

(** The ['start'] dictionary of an event. *)
Record event_start := mk_event_start {
  start_dateTime : option str;
  start_date : option str
}.

(** An item of the answer of [events().list]. *)
Record item := mk_item {
  item_summary : option str;
  item_start : option event_start
}.

Inductive query_error :=
| KeyError_start
| TypeError_fromisoformat
| ValueError_fromisoformat
| KeyError_summary.

Inductive query_result (A : Type) :=
| QOk (a : A)
| QRaise (e : query_error).
Arguments QOk {A} a.
Arguments QRaise {A} e.

(** One pass of the loop body.  [exibir] stands for [fromisoformat], the
    conversion to the display time zone and [strftime], [None] when
    [fromisoformat] rejects the string. *)
Definition formatar_evento (exibir : str -> option str) (event : item)
    : query_result evento :=
  match item_start event with
  | None => QRaise KeyError_start
  | Some st =>
      let start :=
        match start_dateTime st with
        | Some s => Some s
        | None => start_date st
        end in
      match start with
      | None => QRaise TypeError_fromisoformat
      | Some s =>
          match exibir s with
          | None => QRaise ValueError_fromisoformat
          | Some data_hora =>
              match item_summary event with
              | None => QRaise KeyError_summary
              | Some titulo => QOk (mk_evento titulo data_hora)
              end
          end
      end
  end.

(** The loop [for event in events], with the rows appended so far. *)
Fixpoint formatar_eventos (exibir : str -> option str) (events : list item)
    (results : list evento) : query_result (list evento) :=
  match events with
  | [] => QOk results
  | event :: rest =>
      match formatar_evento exibir event with
      | QOk row => formatar_eventos exibir rest (results ++ [row])
      | QRaise e => QRaise e
      end
  end.

(** Lines 185 to 207: the items of the answer turned into rows. *)
Definition processar_resposta (exibir : str -> option str)
    (events : list item) : query_result (list evento) :=
  match events with
  | [] => QOk []
  | _ :: _ => formatar_eventos exibir events []
  end.

(** ** The pattern of calls of a computation *)

(** A call without its payload, except for the text given to the
    classifier and the chat a message is sent to. *)
Inductive kind :=
| KList
| KInsert
| KQuery
| KGenerate (texto : str)
| KSend (chat_id : Z).

Definition kind_of (c : call) : kind :=
  match c with
  | Events_list _ _ => KList
  | Events_insert _ _ _ => KInsert
  | Events_query _ => KQuery
  | Generate_content t => KGenerate t
  | Send_message chat _ => KSend chat
  end.

Definition shape (l : list call) : list kind := List.map kind_of l.

(** The computation returns without raising, and its calls follow one
    of the patterns [S]. *)
Definition follows (S : list (list kind)) {A} (m : M A) : Prop :=
  forall st, (exists a, (m st).1.1 = Ok a) /\ shape (m st).2 ∈ S.

(** The patterns of a request for a date and a time, after its
    classification: an error or an answer without a free candidate
    found; a free slot booked or reported; a busy slot followed by the
    three candidate checks. *)
Definition request_patterns (chat : Z) : list (list kind) :=
  [ [KSend chat];
    [KList; KInsert; KSend chat];
    [KList; KSend chat];
    [KList; KList; KList; KList; KSend chat] ].

(** The patterns of an update that [handle_messages] answers. *)
Definition answered_patterns (u : update) : list (list kind) :=
  let chat := effective_chat_id u in
  let g := KGenerate (message_text u) in
  [ [KInsert; KSend chat];
    [g; KSend chat];
    [g; KList; KInsert; KSend chat];
    [g; KList; KSend chat];
    [g; KList; KList; KList; KList; KSend chat];
    [g; KQuery; KSend chat] ].

(** The patterns of any update: nothing at all, a single message, or
    one of the answered patterns. *)
Definition update_patterns (u : update) : list (list kind) :=
  [] :: [KSend (effective_chat_id u)] :: answered_patterns u.

Definition kind_is_insert (k : kind) : bool :=
  match k with
  | KInsert => true
  | _ => false
  end.

Definition kind_is_generate (k : kind) : bool :=
  match k with
  | KGenerate _ => true
  | _ => false
  end.

Definition kind_is_send (k : kind) : bool :=
  match k with
  | KSend _ => true
  | _ => false
  end.

(** ** A concrete credential library for the examples *)

Module DemoAuth.

Definition fresh : credentials :=
  {| cred_valid := true; cred_expired := false;
     cred_refresh_token := Some (lit "r"); cred_to_json := lit "fresh" |}.

Definition stale : credentials :=
  {| cred_valid := false; cred_expired := true;
     cred_refresh_token := Some (lit "r"); cred_to_json := lit "stale" |}.

(** A token file holds [fresh] or [stale]; a refresh and the browser
    flow both yield [fresh]. *)
Definition auth : auth_env :=
  {| from_authorized_user_file := fun content =>
       if bool_decide (content = lit "fresh") then Some fresh
       else if bool_decide (content = lit "stale") then Some stale
       else None;
     refresh := fun _ => Some fresh;
     run_local_server := Some fresh |}.

End DemoAuth.

(** * Properties *)

(** ** Running the monad *)

Lemma run_bind {A B} (m : M A) (f : A -> M B) st :
  (m ≫= f) st =
  match m st with
  | (Ok a, st', l) => let r := f a st' in (r.1.1, r.1.2, l ++ r.2)
  | (Raise e, st', l) => (Raise e, st', l)
  end.
Proof.
  unfold mbind, M_bind. destruct (m st) as [[[a|e] st'] l]; [|done].
  by destruct (f a st') as [[r st''] l'].
Qed.

Lemma run_ret {A} (a : A) st : (mret a : M A) st = (Ok a, st, []).
Proof. done. Qed.

Lemma run_emit c st : emit c st = (Ok tt, st, [c]).
Proof. done. Qed.

Lemma run_verificar E s e st :
  verificar_disponibilidade E s e st = (Ok (no_events E s e), st, [Events_list s e]).
Proof. done. Qed.

Lemma run_criar E t s e st :
  criar_evento E t s e st = (Ok (html_link E t s e), st, [Events_insert t s e]).
Proof. done. Qed.

Lemma run_send chat r st :
  send_message chat r st = (Ok tt, st, [Send_message chat r]).
Proof. done. Qed.

(** ** Decimal labels *)

Lemma str_of_uint_inj d1 d2 : str_of_uint d1 = str_of_uint d2 -> d1 = d2.
Proof.
  revert d2. induction d1; intros [] H; simpl in H; try discriminate;
    try done; injection H as H; f_equal; auto.
Qed.

Lemma format_int_inj a b : format_int a = format_int b -> a = b.
Proof.
  unfold format_int. intros H%str_of_uint_inj.
  rewrite <- (Unsigned.of_to a), <- (Unsigned.of_to b). by rewrite H.
Qed.

(** ** The suggestion loop *)

Lemma sugerir_loop_run E start offsets acc st :
  sugerir_loop E start offsets acc st =
  (Ok (acc ++ List.filter (slot_free E)
                (List.map (plus_minutes start) offsets)),
   st, List.map (check_of start) offsets).
Proof.
  revert acc. induction offsets as [|o rest IH]; intros acc; simpl.
  - by rewrite run_ret, app_nil_r.
  - rewrite run_bind, run_verificar. simpl. rewrite IH. simpl.
    unfold slot_free at 2. destruct (no_events E _ _); simpl.
    + by rewrite <- app_assoc.
    + done.
Qed.

Lemma sugerir_horarios_run E start end_ st :
  sugerir_horarios E start end_ st =
  (Ok (List.filter (slot_free E) (candidatos start)), st,
   List.map (check_of start) [30; 60; 90]).
Proof. unfold sugerir_horarios. by rewrite sugerir_loop_run. Qed.

(** ** The numbering of suggestions *)

Lemma numerar_other l : forall i m n k,
  (forall j, (j < length l)%nat -> k <> format_int (i + j + 1)) ->
  (numerar i l m n).1 !! k = m !! k.
Proof.
  induction l as [|x l IH]; intros i m n k Hk; simpl; [done|].
  rewrite IH.
  - apply lookup_insert_ne. specialize (Hk 0%nat). simpl in Hk.
    rewrite Nat.add_0_r in Hk. intros Heq. apply Hk; [lia|done].
  - intros j Hj. specialize (Hk (S j)). simpl in Hk.
    replace (S i + j + 1)%nat with (i + S j + 1)%nat by lia. apply Hk. lia.
Qed.

Lemma numerar_label l : forall i m n j v,
  l !! j = Some v ->
  (numerar i l m n).1 !! format_int (i + j + 1) = Some v.
Proof.
  induction l as [|x l IH]; intros i m n j v Hj; [done|].
  destruct j as [|j]; simpl in *.
  - injection Hj as ->. rewrite numerar_other.
    + rewrite Nat.add_0_r. apply lookup_insert_eq.
    + intros j _ Heq%format_int_inj. lia.
  - replace (i + S j + 1)%nat with (S i + j + 1)%nat by lia. by apply IH.
Qed.

Lemma numerar_keys l : forall i m n k v,
  (numerar i l m n).1 !! k = Some v ->
  (exists j, k = format_int (i + j + 1) /\ l !! j = Some v) \/ m !! k = Some v.
Proof.
  induction l as [|x l IH]; intros i m n k v H; simpl in *; [by right|].
  apply IH in H as [(j & -> & Hj)|H].
  - left. exists (S j). split; [f_equal; lia|done].
  - destruct (decide (format_int (i + 1) = k)) as [<-|Hne].
    + rewrite lookup_insert_eq in H. injection H as ->.
      left. exists 0%nat. split; [f_equal; lia|done].
    + rewrite lookup_insert_ne in H by done. by right.
Qed.




(** ** A request for a busy slot *)

(** The schedule request for a busy slot asks for the three candidates
    and, when some are free, stores them numbered together with the
    summary. *)
Lemma execute_agendamento_busy E chat ents st resumo dia inicio fim :
  preparar_agendamento E ents = Some (resumo, dia, inicio, fim) ->
  no_events E inicio fim = false ->
  let kept := List.filter (slot_free E) (candidatos inicio) in
  execute_agendamento E chat ents st =
    match kept with
    | [] =>
        (Ok tt, st,
         Events_list inicio fim :: List.map (check_of inicio) [30; 60; 90]
           ++ [Send_message chat MsgOcupadoSemOpcoes])
    | _ :: _ =>
        (Ok tt,
         <[chat := {| action := None; summary := Some resumo;
                      suggestions := Some (numerar 0 kept ∅ []).1;
                      chosen_time_iso := None |}]> st,
         Events_list inicio fim :: List.map (check_of inicio) [30; 60; 90]
           ++ [Send_message chat
                 (MsgOcupadoOpcoes inicio (numerar 0 kept ∅ []).2)])
    end.
Proof.
  intros Hp Hb kept. unfold execute_agendamento. rewrite Hp.
  rewrite run_bind, run_verificar, Hb. simpl.
  rewrite run_bind, sugerir_horarios_run. fold kept.
  by destruct kept.
Qed.

(** The verify request does the same but stores the action
    ['awaiting_time_selection'] and no summary. *)
Lemma execute_verificacao_busy E chat ents st inicio fim :
  preparar_verificacao E ents = Some (inicio, fim) ->
  no_events E inicio fim = false ->
  let kept := List.filter (slot_free E) (candidatos inicio) in
  execute_verificacao E chat ents st =
    match kept with
    | [] =>
        (Ok tt, st,
         Events_list inicio fim :: List.map (check_of inicio) [30; 60; 90]
           ++ [Send_message chat (MsgOcupadoVerificacaoSemOpcoes inicio)])
    | _ :: _ =>
        (Ok tt,
         <[chat := {| action := Some AWAITING_TIME_SELECTION; summary := None;
                      suggestions := Some (numerar 0 kept ∅ []).1;
                      chosen_time_iso := None |}]> st,
         Events_list inicio fim :: List.map (check_of inicio) [30; 60; 90]
           ++ [Send_message chat
                 (MsgOcupadoVerificacaoOpcoes inicio (numerar 0 kept ∅ []).2)])
    end.
Proof.
  intros Hp Hb kept. unfold execute_verificacao. rewrite Hp.
  rewrite run_bind, run_verificar, Hb. simpl.
  rewrite run_bind, sugerir_horarios_run. fold kept.
  by destruct kept.
Qed.

Lemma plus_one_hour_instant s : instant (plus_one_hour s) = instant s + 60.
Proof. unfold instant, plus_one_hour, plus_minutes. simpl. lia. Qed.


(** ** Every interval named in a call lasts one hour *)

Lemma hourly_ret {A} (a : A) : hourly (mret a).
Proof. intros st. constructor. Qed.

Lemma hourly_raise {A} e : hourly (raise e : M A).
Proof. intros st. constructor. Qed.

Lemma hourly_bind {A B} (m : M A) (f : A -> M B) :
  hourly m -> (forall a, hourly (f a)) -> hourly (m ≫= f).
Proof.
  intros Hm Hf st. rewrite run_bind. specialize (Hm st).
  destruct (m st) as [[[a|e] st'] l]; simpl in *; [|done].
  apply Forall_app. split; [done|apply Hf].
Qed.

Lemma hourly_send chat r : hourly (send_message chat r).
Proof. intros st. by repeat constructor. Qed.

Lemma hourly_storage_get chat : hourly (storage_get chat).
Proof. intros st. constructor. Qed.

Lemma hourly_storage_set chat c : hourly (storage_set chat c).
Proof. intros st. constructor. Qed.

Lemma hourly_storage_del chat : hourly (storage_del chat).
Proof. intros st. constructor. Qed.

Lemma hourly_verificar E s :
  hourly (verificar_disponibilidade E s (plus_one_hour s)).
Proof.
  intros st. rewrite run_verificar. simpl.
  repeat constructor. apply plus_one_hour_instant.
Qed.

Lemma hourly_criar E t s : hourly (criar_evento E t s (plus_one_hour s)).
Proof.
  intros st. rewrite run_criar. simpl.
  repeat constructor. apply plus_one_hour_instant.
Qed.

Lemma hourly_sugerir E s e : hourly (sugerir_horarios E s e).
Proof.
  intros st. rewrite sugerir_horarios_run. simpl. unfold check_of.
  repeat constructor; apply plus_one_hour_instant.
Qed.

Lemma hourly_analisar E t : hourly (analisar_e_decidir_acao_com_gemini E t).
Proof. intros st. by repeat constructor. Qed.

Lemma hourly_obter E k : hourly (obter_eventos_por_palavra_chave E k).
Proof. intros st. by repeat constructor. Qed.

Lemma montar_intervalo_end E ent d i f :
  montar_intervalo E ent = Some (d, i, f) -> f = plus_one_hour i.
Proof.
  unfold montar_intervalo. intros H.
  repeat (apply bind_Some in H as (? & _ & H)).
  destruct (_ <=? _); [|done]. by injection H as <- <- <-.
Qed.

Lemma preparar_agendamento_end E ents r d i f :
  preparar_agendamento E ents = Some (r, d, i, f) -> f = plus_one_hour i.
Proof.
  unfold preparar_agendamento. destruct ents as [ent|]; [|done].
  destruct (_ || _); [done|]. intros H.
  apply bind_Some in H as (r' & _ & H).
  apply bind_Some in H as ([[d' i'] f'] & Hm & H).
  injection H as <- <- <- <-. by eapply montar_intervalo_end.
Qed.

Lemma preparar_verificacao_end E ents i f :
  preparar_verificacao E ents = Some (i, f) -> f = plus_one_hour i.
Proof.
  unfold preparar_verificacao. destruct ents as [ent|]; [|done].
  destruct (_ || _); [done|]. intros H.
  apply bind_Some in H as ([[d' i'] f'] & Hm & H).
  injection H as <- <-. by eapply montar_intervalo_end.
Qed.

Lemma hourly_execute_agendamento E chat ents :
  hourly (execute_agendamento E chat ents).
Proof.
  unfold execute_agendamento.
  destruct (preparar_agendamento E ents) as [[[[r d] i] f]|] eqn:Hp;
    [|apply hourly_send].
  apply preparar_agendamento_end in Hp as ->.
  apply hourly_bind; [apply hourly_verificar|]. intros [].
  - apply hourly_bind; [apply hourly_criar|]. intros. apply hourly_send.
  - apply hourly_bind; [apply hourly_sugerir|]. intros [|x l].
    + apply hourly_send.
    + apply hourly_bind; [apply hourly_storage_set|].
      intros. apply hourly_send.
Qed.

Lemma hourly_execute_verificacao E chat ents :
  hourly (execute_verificacao E chat ents).
Proof.
  unfold execute_verificacao.
  destruct (preparar_verificacao E ents) as [[i f]|] eqn:Hp;
    [|apply hourly_send].
  apply preparar_verificacao_end in Hp as ->.
  apply hourly_bind; [apply hourly_verificar|]. intros [].
  - apply hourly_send.
  - apply hourly_bind; [apply hourly_sugerir|]. intros [|x l].
    + apply hourly_send.
    + apply hourly_bind; [apply hourly_storage_set|].
      intros. apply hourly_send.
Qed.

Lemma hourly_execute_consulta E chat k : hourly (execute_consulta E chat k).
Proof.
  unfold execute_consulta. destruct k as [[|c k]|]; try apply hourly_send.
  apply hourly_bind; [apply hourly_obter|]. intros [|x l]; apply hourly_send.
Qed.

Lemma hourly_decidir E chat t : hourly (decidir_e_executar E chat t).
Proof.
  unfold decidir_e_executar.
  apply hourly_bind; [apply hourly_analisar|]. intros [d|]; [|apply hourly_send].
  destruct (negb _); [apply hourly_send|].
  repeat case_bool_decide;
    auto using hourly_execute_agendamento, hourly_execute_verificacao,
               hourly_execute_consulta, hourly_send.
Qed.

Lemma hourly_finalizar E chat t c : hourly (finalizar_com_titulo E chat t c).
Proof.
  unfold finalizar_com_titulo.
  destruct (chosen_time_iso c); [|apply hourly_raise].
  apply hourly_bind; [apply hourly_criar|]. intros.
  apply hourly_bind; [apply hourly_storage_del|]. intros. apply hourly_send.
Qed.

Lemma hourly_handle_messages E u : hourly (handle_messages E u).
Proof.
  unfold handle_messages.
  apply hourly_bind; [apply hourly_storage_get|]. intros [c|].
  - apply hourly_bind; [|intros; apply hourly_ret].
    case_bool_decide; [apply hourly_finalizar|apply hourly_decidir].
  - apply hourly_bind; [apply hourly_decidir|intros; apply hourly_ret].
Qed.

Lemma hourly_handle_follow_up E u : hourly (handle_follow_up E u).
Proof.
  unfold handle_follow_up.
  apply hourly_bind; [apply hourly_storage_get|]. intros [c|];
    [|apply hourly_ret].
  destruct (_ && _); [|apply hourly_ret].
  destruct (suggestions c) as [sg|]; [|apply hourly_raise].
  destruct (sg !! _) as [iso|].
  - destruct (summary c).
    + apply hourly_bind; [apply hourly_criar|]. intros.
      apply hourly_bind; [apply hourly_storage_del|]. intros.
      apply hourly_bind; [apply hourly_send|]. intros. apply hourly_ret.
    + apply hourly_bind; [apply hourly_storage_set|]. intros.
      apply hourly_bind; [apply hourly_send|]. intros. apply hourly_ret.
  - apply hourly_bind; [apply hourly_send|]. intros. apply hourly_ret.
Qed.

Lemma hourly_iniciar E u : hourly (iniciar_handler E u).
Proof.
  apply hourly_bind; [apply hourly_send|]. intros. apply hourly_ret.
Qed.

Lemma hourly_process_update E u st :
  Forall one_hour_call (process_update E u st).2.
Proof.
  assert (H : forall hs, (forall h, h ∈ hs -> hourly (callback h E u)) ->
                         hourly (process_group E hs u)).
  { induction hs as [|h hs IH]; intros Hhs; simpl; [apply hourly_ret|].
    destruct (check_update h u).
    - apply hourly_bind; [apply Hhs; set_solver|intros; apply hourly_ret].
    - apply IH. intros h' Hh'. apply Hhs. set_solver. }
  apply H. unfold handlers. intros h Hh.
  repeat (apply elem_of_cons in Hh as [->|Hh]); simpl;
    auto using hourly_iniciar, hourly_handle_follow_up, hourly_handle_messages.
  by apply elem_of_nil in Hh.
Qed.

(** C6. The interval built from a schedule or a verify request ends
    sixty minutes after its start, and so does the interval of every
    availability query and of every event creation made while any update
    is processed from any storage, the queries for the candidates of a
    suggestion set among them. *)
Theorem every_interval_lasts_one_hour (E : env) :
  (forall ents,
     match preparar_agendamento E ents with
     | Some (_, _, inicio, fim) =>
         fim = plus_one_hour inicio /\ instant fim = instant inicio + 60
     | None => True
     end)
  /\ (forall ents,
       match preparar_verificacao E ents with
       | Some (inicio, fim) =>
           fim = plus_one_hour inicio /\ instant fim = instant inicio + 60
       | None => True
       end)
  /\ (forall u st, Forall one_hour_call (process_update E u st).2)
  /\ (forall us st, Forall one_hour_call (conversa E us st).2).
Proof.
  repeat split.
  - intros ents.
    destruct (preparar_agendamento E ents) as [[[[r d] i] f]|] eqn:Hp; [|done].
    apply preparar_agendamento_end in Hp as ->.
    split; [done|apply plus_one_hour_instant].
  - intros ents.
    destruct (preparar_verificacao E ents) as [[i f]|] eqn:Hp; [|done].
    apply preparar_verificacao_end in Hp as ->.
    split; [done|apply plus_one_hour_instant].
  - apply hourly_process_update.
  - induction us as [|u us IH]; intros st; simpl; [constructor|].
    apply Forall_app. split; [apply hourly_process_update|apply IH].
Qed.

(** ** The follow-up filter and [strip] *)

(** No decimal digit is a space: checked on every code point up to the
    last space, U+3000. *)
Lemma digit_not_space c : is_decimal c = true -> isspace c = false.
Proof.
  intros Hd. destruct (decide (c <= 12288)%N) as [Hle|Hgt].
  - assert (Hall : Forall (fun n => is_decimal n && isspace n = false)
                     (N.of_nat <$> seq 0 (N.to_nat 12289)))
      by (apply (bool_decide_unpack _); vm_compute; exact I).
    rewrite Forall_forall in Hall.
    assert (Hc : is_decimal c && isspace c = false).
    { apply Hall. apply list_elem_of_fmap. exists (N.to_nat c).
      split; [by rewrite N2Nat.id|]. apply elem_of_seq. lia. }
    by rewrite Hd in Hc.
  - unfold isspace.
    repeat (apply orb_false_intro); try apply andb_false_iff;
      rewrite ?N.leb_gt, ?N.eqb_neq; lia.
Qed.

Lemma decimal_is_digit_char c : is_decimal c = true -> is_digit_char c = true.
Proof.
  unfold is_decimal, is_digit_char, in_ranges. intros H.
  rewrite existsb_app. by rewrite H.
Qed.

Lemma lstrip_id c s : isspace c = false -> lstrip (c :: s) = c :: s.
Proof. intros H. simpl. by rewrite H. Qed.

Lemma rstrip_snoc_id s c : isspace c = false -> rstrip (s ++ [c]) = s ++ [c].
Proof.
  intros H. unfold rstrip. rewrite rev_app_distr. simpl. rewrite H.
  change (c :: rev s) with (rev [c] ++ rev s).
  by rewrite <- rev_app_distr, rev_involutive.
Qed.

Lemma rstrip_snoc_space s c : isspace c = true ->
  rstrip (s ++ [c]) = rstrip s.
Proof.
  intros H. unfold rstrip. rewrite rev_app_distr. simpl. by rewrite H.
Qed.

(** The texts the follow-up filter accepts: a non-empty run of digits,
    possibly followed by one final line feed. *)
Lemma regex_digits_shape t :
  regex_digits t = true ->
  exists ds, ds <> [] /\ forallb is_decimal ds = true
             /\ (t = ds \/ t = ds ++ [10%N]).
Proof.
  destruct t as [|c t]; [done|]. simpl. intros [Hc Ht]%andb_prop.
  revert c Hc Ht. induction t as [|d t IH]; intros c Hc Ht.
  - exists [c]. simpl. rewrite Hc. auto.
  - simpl in Ht. destruct t as [|d' t].
    + apply orb_prop in Ht as [Hd|Hd].
      * exists [c; d]. simpl. rewrite Hc, Hd. auto.
      * apply N.eqb_eq in Hd as ->. exists [c]. simpl. rewrite Hc. auto.
    + apply andb_prop in Ht as [Hd Ht].
      destruct (IH d Hd Ht) as (ds & Hne & Hds & Hshape).
      exists (c :: ds). simpl. rewrite Hc, Hds.
      split; [done|]. split; [done|]. destruct Hshape as [->| ->]; auto.
Qed.

Lemma strip_digits ds :
  ds <> [] -> forallb is_decimal ds = true ->
  strip ds = ds /\ strip (ds ++ [10%N]) = ds.
Proof.
  intros Hne Hds.
  assert (Hl : forall tl, lstrip (ds ++ tl) = ds ++ tl).
  { destruct ds as [|c ds]; [done|]. simpl in Hds.
    apply andb_prop in Hds as [Hc _]. intros tl.
    by apply lstrip_id, digit_not_space. }
  assert (Hr : rstrip ds = ds).
  { destruct (exists_last Hne) as (ds' & c & ->).
    apply rstrip_snoc_id, digit_not_space.
    rewrite forallb_app in Hds. simpl in Hds.
    apply andb_prop in Hds as [_ Hc]. by apply andb_prop in Hc as [Hc _]. }
  unfold strip. split.
  - specialize (Hl []). rewrite app_nil_r in Hl. by rewrite Hl.
  - rewrite Hl, rstrip_snoc_space by done. done.
Qed.

Lemma regex_digits_isdigit t :
  regex_digits t = true -> isdigit (strip t) = true.
Proof.
  intros (ds & Hne & Hds & Hshape)%regex_digits_shape.
  destruct (strip_digits ds Hne Hds) as [H1 H2].
  assert (strip t = ds) as -> by (by destruct Hshape as [->| ->]).
  unfold isdigit. destruct ds as [|d ds]; [done|].
  apply forallb_forall. intros x Hx. apply decimal_is_digit_char.
  by eapply forallb_forall in Hds.
Qed.

(** ** Which handler an update reaches *)

Lemma process_update_digits E u st :
  bot_command u = None -> regex_digits (message_text u) = true ->
  process_update E u st =
    ((handle_follow_up E u st).1.2, (handle_follow_up E u st).2).
Proof.
  intros Hc Hr. unfold process_update, handlers, process_group. simpl.
  unfold filter_command. rewrite Hc, Hr. simpl.
  rewrite run_bind. destruct (handle_follow_up E u st) as [[[a|e] st'] l]; simpl.
  - by rewrite app_nil_r.
  - done.
Qed.

Lemma process_update_text E u st :
  bot_command u = None -> regex_digits (message_text u) = false ->
  message_text u <> [] ->
  process_update E u st =
    ((handle_messages E u st).1.2, (handle_messages E u st).2).
Proof.
  intros Hc Hr Ht. unfold process_update, handlers, process_group. simpl.
  unfold filter_command, filter_text. rewrite Hc, Hr. simpl.
  destruct (message_text u) as [|c t] eqn:Hm; [done|]. simpl.
  rewrite run_bind. destruct (handle_messages E u st) as [[[a|e] st'] l]; simpl.
  - by rewrite app_nil_r.
  - done.
Qed.

(** ** What [handle_follow_up] does in each stored state *)

Lemma follow_up_without_context E u st :
  st !! effective_chat_id u = None ->
  handle_follow_up E u st = (Ok (Some false), st, []).
Proof.
  intros H. unfold handle_follow_up. rewrite run_bind.
  unfold storage_get. by rewrite H.
Qed.

(** A stored context whose ['action'] is not ['awaiting_time_selection']
    makes [handle_follow_up] return [False] without any effect. *)
Lemma follow_up_other_action E u st c :
  st !! effective_chat_id u = Some c ->
  action c <> Some AWAITING_TIME_SELECTION ->
  handle_follow_up E u st = (Ok (Some false), st, []).
Proof.
  intros H Ha. unfold handle_follow_up. rewrite run_bind.
  unfold storage_get. rewrite H. simpl.
  by rewrite bool_decide_eq_false_2.
Qed.

Lemma follow_up_schedule_origin E u st resumo sugg :
  st !! effective_chat_id u = stored_as (AwaitingSlotSelection (Some resumo) sugg) ->
  handle_follow_up E u st = (Ok (Some false), st, []).
Proof. intros H. by eapply follow_up_other_action. Qed.

Lemma follow_up_awaiting_title E u st chosen :
  st !! effective_chat_id u = stored_as (AwaitingTitle chosen) ->
  handle_follow_up E u st = (Ok (Some false), st, []).
Proof. intros H. by eapply follow_up_other_action. Qed.

Lemma follow_up_verify_origin E u st sugg :
  st !! effective_chat_id u = stored_as (AwaitingSlotSelection None sugg) ->
  isdigit (strip (message_text u)) = true ->
  handle_follow_up E u st =
    match sugg !! strip (message_text u) with
    | Some chosen =>
        (Ok (Some true),
         <[effective_chat_id u :=
             {| action := Some AWAITING_TITLE; summary := None;
                suggestions := None; chosen_time_iso := Some chosen |}]> st,
         [Send_message (effective_chat_id u) MsgPedirTitulo])
    | None =>
        (Ok (Some true), st,
         [Send_message (effective_chat_id u) MsgOpcaoInvalida])
    end.
Proof.
  intros H Hd. unfold handle_follow_up. rewrite run_bind.
  unfold storage_get. rewrite H. simpl. rewrite Hd.
  by destruct (sugg !! _).
Qed.

(** The booking branch itself: were the action stored next to the
    summary, a valid selection would create the event under the summary,
    delete the context and confirm. *)
Lemma follow_up_books_with_action_and_summary E u st resumo sugg chosen :
  st !! effective_chat_id u =
    Some {| action := Some AWAITING_TIME_SELECTION; summary := Some resumo;
            suggestions := Some sugg; chosen_time_iso := None |} ->
  isdigit (strip (message_text u)) = true ->
  sugg !! strip (message_text u) = Some chosen ->
  handle_follow_up E u st =
    (Ok (Some true), delete (effective_chat_id u) st,
     [Events_insert resumo chosen (plus_one_hour chosen);
      Send_message (effective_chat_id u)
        (MsgAgendamentoConfirmado resumo chosen
           (html_link E resumo chosen (plus_one_hour chosen)))]).
Proof.
  intros H Hd Hk. unfold handle_follow_up. rewrite run_bind.
  unfold storage_get. rewrite H. simpl. rewrite Hd. by rewrite Hk.
Qed.

(** C5. While the stored state is the one a verify request leaves
    (awaiting a slot selection, no summary), a reply accepted by the
    digits filter whose stripped text is a key of the stored suggestions
    replaces the stored state by awaiting-title holding the start chosen
    under that key, so the suggestions are no longer stored; the only call
    made is the message asking for a title, hence no event is created. *)
Theorem verify_selection_asks_for_title
    (E : env) (u : update) (st : gmap Z context_data)
    (sugg : gmap str datetime) (chosen : datetime) :
  bot_command u = None ->
  regex_digits (message_text u) = true ->
  st !! effective_chat_id u = stored_as (AwaitingSlotSelection None sugg) ->
  sugg !! strip (message_text u) = Some chosen ->
  let r := process_update E u st in
  r.1 !! effective_chat_id u = stored_as (AwaitingTitle chosen)
  /\ (forall chat, chat <> effective_chat_id u -> r.1 !! chat = st !! chat)
  /\ r.2 = [Send_message (effective_chat_id u) MsgPedirTitulo]
  /\ List.filter is_insert r.2 = [].
Proof.
  intros Hc Hr Hst Hk r. subst r.
  rewrite process_update_digits by done.
  rewrite (follow_up_verify_origin E u st sugg Hst)
    by by apply regex_digits_isdigit.
  rewrite Hk. simpl. repeat split.
  - by rewrite lookup_insert_eq.
  - intros chat Hne. by rewrite lookup_insert_ne.
Qed.

(** The storage scenario C reaches after the verify request: two
    suggestions, no summary. *)
Lemma verify_selection_asks_for_title_witness :
  let st := (conversa Demo.ocupado [text_update Demo.chat Demo.AM_I_FREE] ∅).1 in
  let r := process_update Demo.ocupado (text_update Demo.chat (lit "2")) st in
  r.1 !! Demo.chat = stored_as (AwaitingTitle (Demo.local 2025 3 10 14 30))
  /\ r.2 = [Send_message Demo.chat MsgPedirTitulo].
Proof.
  intros st r.
  destruct (verify_selection_asks_for_title Demo.ocupado
              (text_update Demo.chat (lit "2")) st
              (<[lit "1" := Demo.local 2025 3 10 14 0]>
                 (<[lit "2" := Demo.local 2025 3 10 14 30]> ∅))
              (Demo.local 2025 3 10 14 30))
    as (H1 & _ & H2 & _).
  - reflexivity.
  - reflexivity.
  - vm_compute. reflexivity.
  - vm_compute. reflexivity.
  - split; [exact H1|exact H2].
Defined.

(** ** What [handle_messages] does while a title is awaited *)

Lemma messages_awaiting_title E u st chosen :
  st !! effective_chat_id u = stored_as (AwaitingTitle chosen) ->
  handle_messages E u st =
    (Ok None, delete (effective_chat_id u) st,
     [Events_insert (message_text u) chosen (plus_one_hour chosen);
      Send_message (effective_chat_id u)
        (MsgAgendamentoConfirmado (message_text u) chosen
           (html_link E (message_text u) chosen (plus_one_hour chosen)))]).
Proof.
  intros H. unfold handle_messages. rewrite run_bind.
  unfold storage_get. by rewrite H.
Qed.

(** A message that is not made of digits only becomes the title. *)
Lemma title_accepted_unless_digits E u st chosen :
  bot_command u = None -> regex_digits (message_text u) = false ->
  message_text u <> [] ->
  st !! effective_chat_id u = stored_as (AwaitingTitle chosen) ->
  process_update E u st =
    (delete (effective_chat_id u) st,
     [Events_insert (message_text u) chosen (plus_one_hour chosen);
      Send_message (effective_chat_id u)
        (MsgAgendamentoConfirmado (message_text u) chosen
           (html_link E (message_text u) chosen (plus_one_hour chosen)))]).
Proof.
  intros Hc Hr Ht Hst. rewrite process_update_text by done.
  by rewrite (messages_awaiting_title E u st chosen Hst).
Qed.

(** A message made of digits only is taken by the follow-up handler,
    which does nothing with it while a title is awaited. *)
Lemma digits_dropped_while_awaiting_title E u st chosen :
  bot_command u = None -> regex_digits (message_text u) = true ->
  st !! effective_chat_id u = stored_as (AwaitingTitle chosen) ->
  process_update E u st = (st, []).
Proof.
  intros Hc Hr Hst. rewrite process_update_digits by done.
  by rewrite (follow_up_awaiting_title E u st chosen Hst).
Qed.

Lemma regex_digits_nonempty t : regex_digits t = true -> t <> [].
Proof. by destruct t. Qed.

(** Under the dispatch the comments assume, the digits would reach
    [handle_messages] and become the title. *)
Lemma digits_title_accepted_when_passing E u st chosen :
  bot_command u = None -> regex_digits (message_text u) = true ->
  st !! effective_chat_id u = stored_as (AwaitingTitle chosen) ->
  process_update_passing E u st =
    (delete (effective_chat_id u) st,
     [Events_insert (message_text u) chosen (plus_one_hour chosen);
      Send_message (effective_chat_id u)
        (MsgAgendamentoConfirmado (message_text u) chosen
           (html_link E (message_text u) chosen (plus_one_hour chosen)))]).
Proof.
  intros Hc Hr Hst.
  unfold process_update_passing, handlers, process_group_passing. simpl.
  unfold filter_command, filter_text. rewrite Hc, Hr. simpl.
  rewrite run_bind, (follow_up_awaiting_title E u st chosen Hst). simpl.
  destruct (message_text u) as [|c t] eqn:Hm; [done|]. simpl.
  rewrite <- Hm. rewrite run_bind.
  by rewrite (messages_awaiting_title E u st chosen Hst).
Qed.

(** ** Digits-only messages the follow-up handler leaves unanswered *)

Lemma digits_dropped_without_context E u st :
  bot_command u = None -> regex_digits (message_text u) = true ->
  st !! effective_chat_id u = None ->
  process_update E u st = (st, []).
Proof.
  intros Hc Hr Hst. rewrite process_update_digits by done.
  by rewrite follow_up_without_context.
Qed.

(** The dictionary [execute_agendamento] stores has no ['action'] key,
    so a numeric reply to its suggestions is not treated as a selection. *)
Lemma digits_dropped_after_schedule_request E u st resumo sugg :
  bot_command u = None -> regex_digits (message_text u) = true ->
  st !! effective_chat_id u = stored_as (AwaitingSlotSelection (Some resumo) sugg) ->
  process_update E u st = (st, []).
Proof.
  intros Hc Hr Hst. rewrite process_update_digits by done.
  by rewrite (follow_up_schedule_origin E u st resumo sugg Hst).
Qed.

(** After a verify request, a numeric reply that is not a key gets the
    invalid-option message and the storage is unchanged. *)
Lemma invalid_selection_after_verify_request E u st sugg :
  bot_command u = None -> regex_digits (message_text u) = true ->
  st !! effective_chat_id u = stored_as (AwaitingSlotSelection None sugg) ->
  sugg !! strip (message_text u) = None ->
  process_update E u st =
    (st, [Send_message (effective_chat_id u) MsgOpcaoInvalida]).
Proof.
  intros Hc Hr Hst Hk. rewrite process_update_digits by done.
  rewrite (follow_up_verify_origin E u st sugg Hst)
    by by apply regex_digits_isdigit.
  by rewrite Hk.
Qed.

(** Keys are compared as strings: a reply with a leading zero is not the
    key of label 1. *)
Lemma leading_zero_is_not_a_key E st (iso : datetime) :
  st !! Demo.chat
    = stored_as (AwaitingSlotSelection None (numerar 0 [iso] ∅ []).1) ->
  process_update E (text_update Demo.chat (lit "01")) st =
    (st, [Send_message Demo.chat MsgOpcaoInvalida]).
Proof.
  intros Hst.
  by apply (invalid_selection_after_verify_request E
              (text_update Demo.chat (lit "01")) st
              (numerar 0 [iso] ∅ []).1).
Qed.

(** ** Reachable storages hold only the three stored forms *)

Lemma preserves_same {A} (m : M A) :
  (forall st, (m st).1.2 = st) -> preserves m.
Proof. intros H st Hst. by rewrite H. Qed.

Lemma preserves_bind {A B} (m : M A) (f : A -> M B) :
  preserves m -> (forall a, preserves (f a)) -> preserves (m ≫= f).
Proof.
  intros Hm Hf st Hst. rewrite run_bind. specialize (Hm st Hst).
  destruct (m st) as [[[a|e] st'] l]; simpl in *; [|done]. by apply Hf.
Qed.

Lemma preserves_storage_set chat c n :
  stored_as n = Some c -> preserves (storage_set chat c).
Proof.
  intros Hn st Hst chat' c'. simpl.
  destruct (decide (chat = chat')) as [->|Hne].
  - rewrite lookup_insert_eq. intros [= <-]. eauto.
  - rewrite lookup_insert_ne by done. apply Hst.
Qed.

Lemma preserves_storage_del chat : preserves (storage_del chat).
Proof.
  intros st Hst chat' c'. simpl. intros H.
  apply lookup_delete_Some in H as [_ H]. by eapply Hst.
Qed.

Lemma preserves_send chat r : preserves (send_message chat r).
Proof. by apply preserves_same. Qed.

Lemma preserves_sugerir E s e : preserves (sugerir_horarios E s e).
Proof. apply preserves_same. intros st. by rewrite sugerir_horarios_run. Qed.

Lemma preserves_execute_agendamento E chat ents :
  preserves (execute_agendamento E chat ents).
Proof.
  unfold execute_agendamento.
  destruct (preparar_agendamento E ents) as [[[[r d] i] f]|];
    [|apply preserves_send].
  apply preserves_bind; [by apply preserves_same|]. intros [].
  - apply preserves_bind; [by apply preserves_same|]. intros.
    apply preserves_send.
  - apply preserves_bind; [apply preserves_sugerir|]. intros [|x l].
    + apply preserves_send.
    + apply preserves_bind; [|intros; apply preserves_send].
      by eapply (preserves_storage_set _ _ (AwaitingSlotSelection (Some r) _)).
Qed.

Lemma preserves_execute_verificacao E chat ents :
  preserves (execute_verificacao E chat ents).
Proof.
  unfold execute_verificacao.
  destruct (preparar_verificacao E ents) as [[i f]|]; [|apply preserves_send].
  apply preserves_bind; [by apply preserves_same|]. intros [].
  - apply preserves_send.
  - apply preserves_bind; [apply preserves_sugerir|]. intros [|x l].
    + apply preserves_send.
    + apply preserves_bind; [|intros; apply preserves_send].
      by eapply (preserves_storage_set _ _ (AwaitingSlotSelection None _)).
Qed.

Lemma preserves_execute_consulta E chat k :
  preserves (execute_consulta E chat k).
Proof.
  unfold execute_consulta. destruct k as [[|c k]|]; try apply preserves_send.
  apply preserves_bind; [by apply preserves_same|].
  intros [|x l]; apply preserves_send.
Qed.

Lemma preserves_decidir E chat t : preserves (decidir_e_executar E chat t).
Proof.
  unfold decidir_e_executar.
  apply preserves_bind; [by apply preserves_same|].
  intros [d|]; [|apply preserves_send].
  destruct (negb _); [apply preserves_send|].
  repeat case_bool_decide;
    auto using preserves_execute_agendamento, preserves_execute_verificacao,
               preserves_execute_consulta, preserves_send.
Qed.

Lemma preserves_handle_messages E u : preserves (handle_messages E u).
Proof.
  unfold handle_messages.
  apply preserves_bind; [by apply preserves_same|]. intros [c|].
  - apply preserves_bind; [|intros; by apply preserves_same].
    case_bool_decide; [|apply preserves_decidir].
    unfold finalizar_com_titulo.
    destruct (chosen_time_iso c); [|by apply preserves_same].
    apply preserves_bind; [by apply preserves_same|]. intros.
    apply preserves_bind; [apply preserves_storage_del|]. intros.
    apply preserves_send.
  - apply preserves_bind; [apply preserves_decidir|].
    intros; by apply preserves_same.
Qed.

Lemma preserves_handle_follow_up E u : preserves (handle_follow_up E u).
Proof.
  unfold handle_follow_up.
  apply preserves_bind; [by apply preserves_same|].
  intros [c|]; [|by apply preserves_same].
  destruct (_ && _); [|by apply preserves_same].
  destruct (suggestions c) as [sg|]; [|by apply preserves_same].
  destruct (sg !! _) as [iso|].
  - destruct (summary c).
    + apply preserves_bind; [by apply preserves_same|]. intros.
      apply preserves_bind; [apply preserves_storage_del|]. intros.
      apply preserves_bind; [apply preserves_send|]. intros.
      by apply preserves_same.
    + apply preserves_bind;
        [by eapply (preserves_storage_set _ _ (AwaitingTitle iso))|]. intros.
      apply preserves_bind; [apply preserves_send|]. intros.
      by apply preserves_same.
  - apply preserves_bind; [apply preserves_send|]. intros.
    by apply preserves_same.
Qed.

Lemma preserves_process_update E u st :
  well_formed st -> well_formed (process_update E u st).1.
Proof.
  assert (H : forall hs, (forall h, h ∈ hs -> preserves (callback h E u)) ->
                         preserves (process_group E hs u)).
  { induction hs as [|h hs IH]; intros Hhs; simpl; [by apply preserves_same|].
    destruct (check_update h u).
    - apply preserves_bind; [apply Hhs; set_solver|].
      intros; by apply preserves_same.
    - apply IH. intros h' Hh'. apply Hhs. set_solver. }
  apply H. unfold handlers. intros h Hh.
  repeat (apply elem_of_cons in Hh as [->|Hh]); simpl;
    auto using preserves_handle_follow_up, preserves_handle_messages.
  - apply preserves_bind; [apply preserves_send|].
    intros; by apply preserves_same.
  - by apply elem_of_nil in Hh.
Qed.

Lemma reachable_well_formed st : reachable st -> well_formed st.
Proof.
  induction 1 as [|E st u _ IH].
  - intros chat c H. by rewrite lookup_empty in H.
  - by apply preserves_process_update.
Qed.

(** In a reachable storage a context that holds a summary holds no
    action: it is the dictionary written by [execute_agendamento]. *)
Lemma reachable_summary_without_action st chat c :
  reachable st -> st !! chat = Some c -> is_Some (summary c) ->
  exists resumo sugg,
    st !! chat = stored_as (AwaitingSlotSelection (Some resumo) sugg).
Proof.
  intros Hr Hst [r Hs].
  destruct (reachable_well_formed st Hr chat c Hst) as [n Hn].
  destruct n as [|[r'|] sugg|chosen]; simpl in Hn; try done;
    injection Hn as <-; try done.
  exists r', sugg. by rewrite Hst.
Qed.

(** X24. The branch of [handle_follow_up] that books a selected slot
    under the stored summary is never taken: in every reachable storage a
    numeric reply from a chat whose context holds a summary changes
    nothing and calls nothing. *)
Lemma selection_with_summary_never_booked E st u c :
  reachable st ->
  bot_command u = None -> regex_digits (message_text u) = true ->
  st !! effective_chat_id u = Some c -> is_Some (summary c) ->
  process_update E u st = (st, []).
Proof.
  intros Hr Hc Hd Hst Hs.
  destruct (reachable_summary_without_action st _ c Hr Hst Hs)
    as (resumo & sugg & H).
  by eapply digits_dropped_after_schedule_request.
Qed.

Lemma conversa_reachable E us : forall st,
  reachable st -> reachable (conversa E us st).1.
Proof.
  induction us as [|u us IH]; intros st Hr; simpl; [done|].
  apply IH. by constructor.
Qed.

(** ** Requests whose data cannot be turned into an interval *)

Lemma time_of_None hh mm :
  time_of hh mm = None <-> ~ (0 <= hh <= 23 /\ 0 <= mm <= 59).
Proof.
  unfold time_of.
  destruct (_ && _) eqn:Hb.
  - repeat (apply andb_prop in Hb as [Hb ?]). split; [done|]. intros []. lia.
  - split; [|done]. intros _ [[] []].
    repeat (apply andb_false_iff in Hb as [Hb|Hb]); lia.
Qed.

Lemma montar_intervalo_None E ent :
  montar_intervalo E ent = None <->
  data ent = None \/ hora ent = None \/ data_hora_invalida E ent
  \/ intervalo_irrepresentavel E ent.
Proof.
  unfold montar_intervalo, data_hora_invalida, intervalo_irrepresentavel.
  destruct (data ent) as [d|]; simpl; [|split; auto].
  destruct (strptime_date E (strip d)) as [dia|] eqn:Hd; simpl.
  2:{ split; [|done]. intros _. right. right. left. left. by exists d. }
  destruct (hora ent) as [h|]; simpl; [|split; auto].
  destruct (parse_hora E h) as [[hh mm]|] eqn:Hh; simpl.
  2:{ split; [|done]. intros _. right. right. left. right. left.
      by exists h. }
  destruct (time_of hh mm) as [t|] eqn:Ht; simpl.
  2:{ split; [|done]. intros _. right. right. left. right. right.
      exists h, hh, mm. by rewrite <- time_of_None. }
  destruct (localize_offset E (dia * 1440 + t)) as [off|] eqn:Hl; simpl.
  2:{ split; [|done]. intros _. do 3 right.
      exists d, dia, h, hh, mm, t. by rewrite Hl. }
  destruct (Z.leb_spec (dia * 1440 + t + 60) MAX_WALL) as [Hle|Hgt].
  - split; [done|].
    intros [|[|[[(d' & [= <-] & H)|[(h' & [= <-] & H)|H]]|H]]];
      try congruence.
    + destruct H as (h' & hh' & mm' & [= <-] & Hp & H).
      rewrite Hh in Hp. injection Hp as <- <-.
      apply time_of_None in H. congruence.
    + destruct H as (d' & dia' & h' & hh' & mm' & t' & [= <-] & Hd' & [= <-]
                     & Hp & Ht' & H).
      rewrite Hd in Hd'. injection Hd' as <-.
      rewrite Hh in Hp. injection Hp as <- <-.
      rewrite Ht in Ht'. injection Ht' as <-.
      rewrite Hl in H. lia.
  - split; [|done]. intros _. do 3 right.
    exists d, dia, h, hh, mm, t. by rewrite Hl.
Qed.

(** The [try] block of each function raises on the invalid requests. *)
Lemma preparar_agendamento_None E ents :
  pedido_invalido E Agendar ents -> preparar_agendamento E ents = None.
Proof.
  unfold preparar_agendamento, pedido_invalido, campos_ausentes.
  destruct ents as [ent|]; [|done].
  destruct (truthy (titulo ent)) eqn:Ht; simpl; [|done].
  destruct (truthy (hora ent)) eqn:Hh; simpl; [|done].
  destruct (titulo ent) as [r|]; [|done]. simpl. intros H.
  assert (Hm : montar_intervalo E ent = None).
  { apply montar_intervalo_None. destruct H as [[|[|]]|]; try done; auto. }
  by rewrite Hm.
Qed.

Lemma preparar_verificacao_None E ents :
  pedido_invalido E Verificar ents -> preparar_verificacao E ents = None.
Proof.
  unfold preparar_verificacao, pedido_invalido, campos_ausentes.
  destruct ents as [ent|]; [|done].
  destruct (truthy (data ent)) eqn:Ht; simpl; [|done].
  destruct (truthy (hora ent)) eqn:Hh; simpl; [|done]. intros H.
  assert (Hm : montar_intervalo E ent = None).
  { apply montar_intervalo_None. destruct H as [[|]|]; try done; auto. }
  by rewrite Hm.
Qed.

(** And only on them, or when the interval is not representable. *)
Lemma preparar_None_inv E p ents :
  match p with
  | Agendar => preparar_agendamento E ents = None
  | Verificar => preparar_verificacao E ents = None
  end ->
  pedido_invalido E p ents
  \/ exists ent, ents = Some ent /\ intervalo_irrepresentavel E ent.
Proof.
  unfold preparar_agendamento, preparar_verificacao, pedido_invalido,
    campos_ausentes.
  destruct ents as [ent|]; [|by left].
  pose proof (montar_intervalo_None E ent) as [Hm _].
  destruct p.
  - destruct (truthy (titulo ent)) eqn:Ht; simpl; [|by auto].
    destruct (truthy (hora ent)) eqn:Hh; simpl; [|by auto].
    destruct (titulo ent) as [r|]; [|done]. simpl.
    destruct (montar_intervalo E ent) as [i|]; simpl; [done|]. intros _.
    destruct (Hm eq_refl) as [|[Hn|[|]]]; eauto.
    by rewrite Hn in Hh.
  - destruct (truthy (data ent)) eqn:Ht; simpl; [|by auto].
    destruct (truthy (hora ent)) eqn:Hh; simpl; [|by auto].
    destruct (montar_intervalo E ent) as [i|]; simpl; [done|]. intros _.
    destruct (Hm eq_refl) as [Hn|[Hn|[|]]]; eauto.
    + by rewrite Hn in Ht.
    + by rewrite Hn in Hh.
Qed.

(** C8. A schedule or verify request whose entities are absent, lack a
    required field, or hold a date or time that does not parse is
    answered with the error message of its kind asking for a clearer
    format; that message is the only call made (the calendar is not
    contacted) and the storage is returned as it was. *)
Theorem invalid_request_only_reports_error
    (E : env) (p : pedido) (chat_id : Z) (ents : option entidades)
    (st : gmap Z context_data) :
  pedido_invalido E p ents ->
  executar E p chat_id ents st =
    (Ok tt, st, [Send_message chat_id (mensagem_de_erro p)]).
Proof.
  intros H. destruct p; simpl.
  - apply preparar_agendamento_None in H.
    unfold execute_agendamento. by rewrite H.
  - apply preparar_verificacao_None in H.
    unfold execute_verificacao. by rewrite H.
Qed.

(** A request to book lunch [on the tenth]: the date is not a date. *)
Lemma invalid_request_only_reports_error_witness :
  executar Demo.livre Agendar Demo.chat
    (Some (Demo.entidades_de "lunch" "the tenth" "13:00")) ∅ =
  (Ok tt, ∅, [Send_message Demo.chat MsgErroAgendamento]).
Proof.
  apply (invalid_request_only_reports_error Demo.livre Agendar Demo.chat
           (Some (Demo.entidades_de "lunch" "the tenth" "13:00")) ∅).
  right. left. exists (lit "the tenth"). split; reflexivity.
Defined.

(** The same from the dispatch of the message: the classification that
    produced the request and the error message are the only calls. *)
Lemma invalid_request_from_dispatch E p u st d :
  bot_command u = None -> regex_digits (message_text u) = false ->
  message_text u <> [] ->
  (forall c, st !! effective_chat_id u = Some c ->
             action c <> Some AWAITING_TITLE) ->
  gemini E (message_text u) = Some d ->
  d_action d = Some (match p with Agendar => AGENDAR | Verificar => VERIFICAR end) ->
  pedido_invalido E p (d_agendamento d) ->
  process_update E u st =
    (st, [Generate_content (message_text u);
          Send_message (effective_chat_id u) (mensagem_de_erro p)]).
Proof.
  intros Hc Hr Ht Hst Hg Ha Hp. rewrite process_update_text by done.
  assert (Hd : decidir_e_executar E (effective_chat_id u) (message_text u) st =
               (Ok tt, st, [Generate_content (message_text u);
                            Send_message (effective_chat_id u)
                              (mensagem_de_erro p)])).
  { unfold decidir_e_executar. rewrite run_bind.
    unfold analisar_e_decidir_acao_com_gemini. rewrite run_bind, run_emit.
    simpl. rewrite Hg. simpl. rewrite Ha.
    destruct p; simpl in *.
    - apply preparar_agendamento_None in Hp.
      unfold execute_agendamento. by rewrite Hp.
    - apply preparar_verificacao_None in Hp.
      unfold execute_verificacao. by rewrite Hp. }
  unfold handle_messages. rewrite run_bind. unfold storage_get. simpl.
  destruct (st !! effective_chat_id u) as [c|] eqn:Hl.
  - rewrite run_bind. rewrite bool_decide_eq_false_2 by by apply Hst.
    by rewrite Hd.
  - rewrite run_bind. by rewrite Hd.
Qed.

(** ** The query path *)

Lemma normalize_keyword_ascii_lower E keyword :
  ascii_lower_case (normalize_keyword E keyword).
Proof.
  unfold ascii_lower_case, normalize_keyword, lower, encode_ascii_ignore.
  apply List.Forall_forall. intros c Hc.
  apply in_map_iff in Hc as (c0 & <- & Hc0).
  apply filter_In in Hc0 as [_ Hlt]. apply N.ltb_lt in Hlt.
  unfold lower_char. destruct (_ && _) eqn:Hb.
  - apply andb_prop in Hb as [H1 H2]. apply N.leb_le in H1, H2. lia.
  - split; [done|]. intros [H1 H2].
    apply andb_false_iff in Hb as [Hb|Hb]; apply N.leb_gt in Hb; lia.
Qed.

(** With the decomposition of the demo environment, [Almoço] is searched
    as [almoco]. *)
Lemma normalize_keyword_example :
  normalize_keyword Demo.livre [65; 108; 109; 111; 231; 111]%N = lit "almoco".
Proof. reflexivity. Qed.

(** ** The scenarios of the specification, run on the code *)

(** Scenario A: the slot is free, one event is created from 13:00 to
    14:00 and the confirmation carries the returned link. *)
Example scenario_A :
  conversa Demo.livre [text_update Demo.chat Demo.BOOK_LUNCH] ∅ =
  (∅,
   [Generate_content Demo.BOOK_LUNCH;
    Events_list (Demo.local 2025 3 10 13 0) (Demo.local 2025 3 10 14 0);
    Events_insert (lit "lunch")
      (Demo.local 2025 3 10 13 0) (Demo.local 2025 3 10 14 0);
    Send_message Demo.chat
      (MsgAgendado (lit "lunch") (Demo.days_from_civil 2025 3 10)
         (Demo.local 2025 3 10 13 0) Demo.LINK)]).
Proof. vm_compute. reflexivity. Qed.

(** Scenario C: a verify request on the busy slot, the reply [2], then the
    title [Dentist]: one event with that title at the second suggestion,
    and the storage is empty again. *)
Example scenario_C :
  let r := conversa Demo.ocupado
             [text_update Demo.chat Demo.AM_I_FREE;
              text_update Demo.chat (lit "2");
              text_update Demo.chat (lit "Dentist")] ∅ in
  r.1 = ∅
  /\ List.filter is_insert r.2 =
       [Events_insert (lit "Dentist")
          (Demo.local 2025 3 10 14 30) (Demo.local 2025 3 10 15 30)].
Proof. vm_compute. split; reflexivity. Qed.

(** Scenario D: after the verify request the reply [9] is answered with
    the invalid-option message and the two suggestions stay stored. *)
Example scenario_D :
  let st := (conversa Demo.ocupado
               [text_update Demo.chat Demo.AM_I_FREE] ∅).1 in
  process_update Demo.ocupado (text_update Demo.chat (lit "9")) st =
  (st, [Send_message Demo.chat MsgOpcaoInvalida]).
Proof. vm_compute. reflexivity. Qed.

(** C1. Scenario B on the code.  The schedule request for the busy slot
    stores the summary with the suggestions 1 (14:00) and 2 (14:30) but
    without the ['action'] key; the reply [2] is then taken by the
    follow-up handler, which makes no call at all (no event is created
    and no confirmation is sent) and leaves the storage as it was, where
    the specification has one event created at the chosen slot, the state
    cleared and a confirmation sent. *)
Theorem schedule_selection_books_nothing :
  let st := (conversa Demo.ocupado
               [text_update Demo.chat Demo.BOOK_LUNCH] ∅).1 in
  reachable st
  /\ st !! Demo.chat =
       stored_as (AwaitingSlotSelection (Some (lit "lunch"))
                    (<[lit "1" := Demo.local 2025 3 10 14 0]>
                       (<[lit "2" := Demo.local 2025 3 10 14 30]> ∅)))
  /\ process_update Demo.ocupado (text_update Demo.chat (lit "2")) st
       = (st, []).
Proof.
  intros st. split.
  - apply conversa_reachable. constructor.
  - vm_compute. split; reflexivity.
Qed.

(** C3. While a title is awaited (scenario C after the reply [2]), the
    message [123] is taken by the follow-up handler and not by
    [handle_messages]: no call is made, so no event is created and no
    confirmation is sent, and the awaited-title state stays stored, where
    the specification has the digits become the title.  Under the
    dispatch that the comments of [handle_follow_up] assume, the event
    titled [123] would be created. *)
Theorem digits_only_title_books_nothing :
  let st := (conversa Demo.ocupado
               [text_update Demo.chat Demo.AM_I_FREE;
                text_update Demo.chat (lit "2")] ∅).1 in
  reachable st
  /\ st !! Demo.chat = stored_as (AwaitingTitle (Demo.local 2025 3 10 14 30))
  /\ process_update Demo.ocupado (text_update Demo.chat (lit "123")) st
       = (st, [])
  /\ List.filter is_insert
       (process_update_passing Demo.ocupado
          (text_update Demo.chat (lit "123")) st).2
     = [Events_insert (lit "123")
          (Demo.local 2025 3 10 14 30) (Demo.local 2025 3 10 15 30)].
Proof.
  intros st. split.
  - apply conversa_reachable. constructor.
  - vm_compute. repeat split; reflexivity.
Qed.

(** C4. After the schedule request of scenario B, the reply [9], which
    is not a key of the stored suggestions, leaves the storage unchanged
    but is answered with nothing: no invalid-option message is sent,
    where the specification has one sent for every awaited selection. *)
Theorem invalid_selection_after_schedule_unanswered :
  let st := (conversa Demo.ocupado
               [text_update Demo.chat Demo.BOOK_LUNCH] ∅).1 in
  let sugg := <[lit "1" := Demo.local 2025 3 10 14 0]>
                (<[lit "2" := Demo.local 2025 3 10 14 30]> ∅) in
  st !! Demo.chat = stored_as (AwaitingSlotSelection (Some (lit "lunch")) sugg)
  /\ sugg !! lit "9" = None
  /\ process_update Demo.ocupado (text_update Demo.chat (lit "9")) st
       = (st, []).
Proof. vm_compute. repeat split; reflexivity. Qed.

(** C7. With no negotiation pending, the message [5] is taken by the
    follow-up handler, which returns without any call: nothing is done
    and nothing is sent to the user. *)
Theorem digits_without_negotiation_unanswered :
  reachable ∅
  /\ process_update Demo.livre (text_update Demo.chat (lit "5")) ∅ = (∅, [])
  /\ List.filter is_send
       (process_update Demo.livre (text_update Demo.chat (lit "5")) ∅).2 = [].
Proof. split; [constructor|]. vm_compute. split; reflexivity. Qed.

(** ** Only the sender's context is touched *)

Lemma frame_same {A} chat (m : M A) :
  (forall st, (m st).1.2 = st) -> frame chat m.
Proof. intros H st chat' _. by rewrite H. Qed.

Lemma frame_bind {A B} chat (m : M A) (f : A -> M B) :
  frame chat m -> (forall a, frame chat (f a)) -> frame chat (m ≫= f).
Proof.
  intros Hm Hf st chat' Hne. rewrite run_bind. specialize (Hm st chat' Hne).
  destruct (m st) as [[[a|e] st'] l]; simpl in *; [|done].
  by rewrite (Hf a st' chat' Hne).
Qed.

Lemma frame_storage_set chat c : frame chat (storage_set chat c).
Proof. intros st chat' Hne. simpl. by rewrite lookup_insert_ne. Qed.

Lemma frame_storage_del chat : frame chat (storage_del chat).
Proof. intros st chat' Hne. simpl. by rewrite lookup_delete_ne. Qed.

Lemma frame_sugerir chat E s e : frame chat (sugerir_horarios E s e).
Proof. apply frame_same. intros st. by rewrite sugerir_horarios_run. Qed.

Lemma frame_execute_agendamento E chat ents :
  frame chat (execute_agendamento E chat ents).
Proof.
  unfold execute_agendamento.
  destruct (preparar_agendamento E ents) as [[[[r d] i] f]|];
    [|by apply frame_same].
  apply frame_bind; [by apply frame_same|]. intros [].
  - apply frame_bind; [by apply frame_same|]. intros. by apply frame_same.
  - apply frame_bind; [apply frame_sugerir|]. intros [|x l].
    + by apply frame_same.
    + apply frame_bind; [apply frame_storage_set|].
      intros. by apply frame_same.
Qed.

Lemma frame_execute_verificacao E chat ents :
  frame chat (execute_verificacao E chat ents).
Proof.
  unfold execute_verificacao.
  destruct (preparar_verificacao E ents) as [[i f]|]; [|by apply frame_same].
  apply frame_bind; [by apply frame_same|]. intros [].
  - by apply frame_same.
  - apply frame_bind; [apply frame_sugerir|]. intros [|x l].
    + by apply frame_same.
    + apply frame_bind; [apply frame_storage_set|].
      intros. by apply frame_same.
Qed.

Lemma frame_execute_consulta E chat k :
  frame chat (execute_consulta E chat k).
Proof.
  unfold execute_consulta. destruct k as [[|c k]|]; try by apply frame_same.
  apply frame_bind; [by apply frame_same|].
  intros [|x l]; by apply frame_same.
Qed.

Lemma frame_decidir E chat t : frame chat (decidir_e_executar E chat t).
Proof.
  unfold decidir_e_executar.
  apply frame_bind; [by apply frame_same|].
  intros [d|]; [|by apply frame_same].
  destruct (negb _); [by apply frame_same|].
  repeat case_bool_decide;
    auto using frame_execute_agendamento, frame_execute_verificacao,
               frame_execute_consulta.
  by apply frame_same.
Qed.

Lemma frame_handle_messages E u :
  frame (effective_chat_id u) (handle_messages E u).
Proof.
  unfold handle_messages.
  apply frame_bind; [by apply frame_same|]. intros [c|].
  - apply frame_bind; [|intros; by apply frame_same].
    case_bool_decide; [|apply frame_decidir].
    unfold finalizar_com_titulo.
    destruct (chosen_time_iso c); [|by apply frame_same].
    apply frame_bind; [by apply frame_same|]. intros.
    apply frame_bind; [apply frame_storage_del|]. intros.
    by apply frame_same.
  - apply frame_bind; [apply frame_decidir|]. intros; by apply frame_same.
Qed.

Lemma frame_handle_follow_up E u :
  frame (effective_chat_id u) (handle_follow_up E u).
Proof.
  unfold handle_follow_up.
  apply frame_bind; [by apply frame_same|].
  intros [c|]; [|by apply frame_same].
  destruct (_ && _); [|by apply frame_same].
  destruct (suggestions c) as [sg|]; [|by apply frame_same].
  destruct (sg !! _) as [iso|].
  - destruct (summary c).
    + apply frame_bind; [by apply frame_same|]. intros.
      apply frame_bind; [apply frame_storage_del|]. intros.
      apply frame_bind; by intros; apply frame_same.
    + apply frame_bind; [apply frame_storage_set|]. intros.
      apply frame_bind; by intros; apply frame_same.
  - apply frame_bind; by intros; apply frame_same.
Qed.

Lemma frame_process_group E u :
  frame (effective_chat_id u) (process_group E handlers u).
Proof.
  assert (H : forall hs,
             (forall h, h ∈ hs -> frame (effective_chat_id u) (callback h E u)) ->
             frame (effective_chat_id u) (process_group E hs u)).
  { induction hs as [|h hs IH]; intros Hhs; simpl; [by apply frame_same|].
    destruct (check_update h u).
    - apply frame_bind; [apply Hhs; set_solver|].
      intros; by apply frame_same.
    - apply IH. intros h' Hh'. apply Hhs. set_solver. }
  apply H. unfold handlers. intros h Hh.
  repeat (apply elem_of_cons in Hh as [->|Hh]); simpl;
    auto using frame_handle_follow_up, frame_handle_messages.
  - apply frame_bind; by intros; apply frame_same.
  - by apply elem_of_nil in Hh.
Qed.

(** X1. Processing an update changes the stored context of no chat
    other than the sender's: with the sender's key removed, the storage
    after the update is the storage before it. *)
Theorem update_touches_only_its_chat
    (E : env) (u : update) (st : gmap Z context_data) :
  delete (effective_chat_id u) (process_update E u st).1
  = delete (effective_chat_id u) st.
Proof.
  apply map_eq. intros chat.
  destruct (decide (chat = effective_chat_id u)) as [->|Hne].
  - by rewrite !lookup_delete_eq.
  - rewrite !lookup_delete_ne by done.
    by apply (frame_process_group E u st chat).
Qed.

(** ** The call patterns of the handlers *)

Lemma follows_weaken {A} S S' (m : M A) :
  follows S m -> (forall s, s ∈ S -> s ∈ S') -> follows S' m.
Proof. intros H Hs st. destruct (H st) as [Hok Hin]. auto. Qed.

Lemma follows_bind {A B} S1 S2 S (m : M A) (f : A -> M B) :
  follows S1 m -> (forall a, follows S2 (f a)) ->
  (forall s1 s2, s1 ∈ S1 -> s2 ∈ S2 -> s1 ++ s2 ∈ S) ->
  follows S (m ≫= f).
Proof.
  intros Hm Hf HS st. rewrite run_bind.
  destruct (Hm st) as [[a Ha] H1].
  destruct (m st) as [[r st'] l]; simpl in *. subst r.
  destruct (Hf a st') as [[b Hb] H2]. simpl. split; [by exists b|].
  unfold shape. rewrite map_app. by apply HS.
Qed.

Lemma follows_silent {A} (m : M A) :
  (forall st, exists a, m st = (Ok a, (m st).1.2, [])) -> follows [[]] m.
Proof.
  intros H st. destruct (H st) as [a Ha]. rewrite Ha. simpl.
  split; [by exists a|set_solver].
Qed.

Lemma follows_send chat r : follows [[KSend chat]] (send_message chat r).
Proof. intros st. split; [by exists tt|]. simpl. set_solver. Qed.

Lemma follows_verificar E s e :
  follows [[KList]] (verificar_disponibilidade E s e).
Proof. intros st. split; [by eexists|]. simpl. set_solver. Qed.

Lemma follows_criar E t s e : follows [[KInsert]] (criar_evento E t s e).
Proof. intros st. split; [by eexists|]. simpl. set_solver. Qed.

Lemma follows_sugerir E s e :
  follows [[KList; KList; KList]] (sugerir_horarios E s e).
Proof.
  intros st. rewrite sugerir_horarios_run. split; [by eexists|].
  simpl. set_solver.
Qed.

Lemma follows_obter E k :
  follows [[KQuery]] (obter_eventos_por_palavra_chave E k).
Proof. intros st. split; [by eexists|]. simpl. set_solver. Qed.

Lemma follows_analisar E t :
  follows [[KGenerate t]] (analisar_e_decidir_acao_com_gemini E t).
Proof. intros st. split; [by eexists|]. simpl. set_solver. Qed.

Lemma follows_storage_set chat c : follows [[]] (storage_set chat c).
Proof. apply follows_silent. intros st. by exists tt. Qed.

Lemma follows_storage_del chat : follows [[]] (storage_del chat).
Proof. apply follows_silent. intros st. by exists tt. Qed.

Ltac patterns :=
  intros; unfold request_patterns, answered_patterns, update_patterns in *;
  set_unfold; simpl; intuition (subst; simpl; auto 10).

Lemma follows_set_then_send chat c r :
  follows [[KSend chat]] (storage_set chat c ≫= fun _ => send_message chat r).
Proof.
  eapply follows_bind; [apply follows_storage_set|
                        intros; apply follows_send|patterns].
Qed.

Lemma follows_execute_agendamento E chat ents :
  follows (request_patterns chat) (execute_agendamento E chat ents).
Proof.
  unfold execute_agendamento.
  destruct (preparar_agendamento E ents) as [[[[r d] i] f]|].
  2:{ eapply follows_weaken; [apply follows_send|patterns]. }
  eapply (follows_bind _
            [[KInsert; KSend chat]; [KList; KList; KList; KSend chat]]);
    [apply follows_verificar| |patterns].
  intros [].
  - eapply follows_bind; [apply follows_criar|
                          intros; apply follows_send|patterns].
  - eapply (follows_bind _ [[KSend chat]]); [apply follows_sugerir| |patterns].
    intros [|x l]; [apply follows_send|apply follows_set_then_send].
Qed.

Lemma follows_execute_verificacao E chat ents :
  follows (request_patterns chat) (execute_verificacao E chat ents).
Proof.
  unfold execute_verificacao.
  destruct (preparar_verificacao E ents) as [[i f]|].
  2:{ eapply follows_weaken; [apply follows_send|patterns]. }
  eapply (follows_bind _ [[KSend chat]; [KList; KList; KList; KSend chat]]);
    [apply follows_verificar| |patterns].
  intros [].
  - eapply follows_weaken; [apply follows_send|patterns].
  - eapply (follows_bind _ [[KSend chat]]); [apply follows_sugerir| |patterns].
    intros [|x l]; [apply follows_send|apply follows_set_then_send].
Qed.

Lemma follows_execute_consulta E chat k :
  follows [[KSend chat]; [KQuery; KSend chat]] (execute_consulta E chat k).
Proof.
  unfold execute_consulta.
  destruct k as [[|c k]|];
    try (eapply follows_weaken; [apply follows_send|patterns]).
  eapply (follows_bind _ [[KSend chat]]); [apply follows_obter| |patterns].
  intros [|x l]; apply follows_send.
Qed.

Lemma follows_decidir E u :
  follows (List.tl (answered_patterns u))
    (decidir_e_executar E (effective_chat_id u) (message_text u)).
Proof.
  unfold decidir_e_executar.
  eapply (follows_bind _
            ([KQuery; KSend (effective_chat_id u)]
               :: request_patterns (effective_chat_id u)));
    [apply follows_analisar| |patterns].
  intros [d|]; [|eapply follows_weaken; [apply follows_send|patterns]].
  destruct (negb _); [eapply follows_weaken; [apply follows_send|patterns]|].
  repeat case_bool_decide.
  - eapply follows_weaken; [apply follows_execute_agendamento|patterns].
  - eapply follows_weaken; [apply follows_execute_verificacao|patterns].
  - eapply follows_weaken; [apply follows_execute_consulta|patterns].
  - eapply follows_weaken; [apply follows_send|patterns].
Qed.

Lemma well_formed_awaiting_title st chat c :
  well_formed st -> st !! chat = Some c -> action c = Some AWAITING_TITLE ->
  exists chosen, chosen_time_iso c = Some chosen.
Proof.
  intros Hwf Hst Ha. destruct (Hwf chat c Hst) as [n Hn].
  destruct n as [|[r|] sg|chosen]; simpl in Hn; try done;
    injection Hn as <-; try done.
  by exists chosen.
Qed.

Lemma well_formed_awaiting_selection st chat c :
  well_formed st -> st !! chat = Some c ->
  action c = Some AWAITING_TIME_SELECTION ->
  summary c = None /\ exists sugg, suggestions c = Some sugg.
Proof.
  intros Hwf Hst Ha. destruct (Hwf chat c Hst) as [n Hn].
  destruct n as [|[r|] sg|chosen]; simpl in Hn; try done;
    injection Hn as <-; try done.
  split; [done|by exists sg].
Qed.

Lemma decidir_then_none E u st :
  (exists a, ((decidir_e_executar E (effective_chat_id u) (message_text u)
                 ≫= fun _ => mret (@None bool)) st).1.1 = Ok a)
  /\ shape ((decidir_e_executar E (effective_chat_id u) (message_text u)
               ≫= fun _ => mret (@None bool)) st).2
     ∈ answered_patterns u.
Proof.
  rewrite run_bind. destruct (follows_decidir E u st) as [[a Ha] Hs].
  destruct (decidir_e_executar _ _ _ st) as [[r st'] l]. simpl in *. subst r.
  simpl. rewrite app_nil_r. split; [by eexists|].
  revert Hs. generalize (shape l). patterns.
Qed.

Lemma handle_messages_patterns E u st :
  shape (handle_messages E u st).2 ∈ [] :: answered_patterns u
  /\ (well_formed st ->
      (exists a, (handle_messages E u st).1.1 = Ok a)
      /\ shape (handle_messages E u st).2 ∈ answered_patterns u).
Proof.
  unfold handle_messages. rewrite run_bind. unfold storage_get. simpl.
  destruct (st !! effective_chat_id u) as [c|] eqn:Hst.
  2:{ destruct (decidir_then_none E u st) as [Hok Hs].
      split; [by apply elem_of_cons; right|done]. }
  case_bool_decide as Ha.
  2:{ destruct (decidir_then_none E u st) as [Hok Hs].
      split; [by apply elem_of_cons; right|done]. }
  rewrite run_bind. unfold finalizar_com_titulo.
  destruct (chosen_time_iso c) as [chosen|] eqn:Hc.
  - rewrite !run_bind, run_criar. simpl. split.
    + patterns.
    + intros _. split; [by eexists|patterns].
  - simpl. split; [patterns|]. intros Hwf.
    destruct (well_formed_awaiting_title st _ c Hwf Hst Ha) as [ch Hch].
    congruence.
Qed.

Lemma handle_follow_up_patterns E u st :
  let chat := effective_chat_id u in
  shape (handle_follow_up E u st).2 ∈ [[]; [KSend chat]; [KInsert; KSend chat]]
  /\ (well_formed st ->
      (exists a, (handle_follow_up E u st).1.1 = Ok a)
      /\ shape (handle_follow_up E u st).2 ∈ [[]; [KSend chat]]).
Proof.
  intros chat. unfold handle_follow_up. rewrite run_bind.
  unfold storage_get. simpl. fold chat.
  destruct (st !! chat) as [c|] eqn:Hst.
  2:{ simpl. split; [set_solver|]. intros _. split; [by eexists|set_solver]. }
  destruct (bool_decide _) eqn:Ha; simpl.
  2:{ split; [set_solver|]. intros _. split; [by eexists|set_solver]. }
  destruct (isdigit _); simpl.
  2:{ split; [set_solver|]. intros _. split; [by eexists|set_solver]. }
  apply bool_decide_eq_true in Ha.
  destruct (suggestions c) as [sg|] eqn:Hsg.
  - destruct (sg !! _) as [iso|].
    + destruct (summary c) as [r|] eqn:Hr.
      * rewrite !run_bind, run_criar. simpl. split; [set_solver|].
        intros Hwf.
        destruct (well_formed_awaiting_selection st _ c Hwf Hst Ha) as [? _].
        congruence.
      * simpl. split; [set_solver|]. intros _.
        split; [by eexists|set_solver].
    + simpl. split; [set_solver|]. intros _.
      split; [by eexists|set_solver].
  - simpl. split; [set_solver|]. intros Hwf.
    destruct (well_formed_awaiting_selection st _ c Hwf Hst Ha)
      as [_ [sg Hsg']].
    congruence.
Qed.

(** Every update, from any storage, follows one of the update patterns;
    from a well-formed storage no handler raises. *)
Lemma process_group_patterns E u st :
  shape (process_group E handlers u st).2 ∈ update_patterns u
  /\ (well_formed st -> (process_group E handlers u st).1.1 = Ok tt).
Proof.
  unfold handlers, process_group.
  cbn [check_update callback].
  destruct (bool_decide _).
  { rewrite !run_bind. simpl. split; [patterns|done]. }
  destruct (_ && _).
  { rewrite run_bind.
    destruct (handle_follow_up_patterns E u st) as [Hs Hwf].
    destruct (handle_follow_up E u st) as [[[a|e] st'] l]; simpl in *.
    - rewrite app_nil_r. split; [|done].
      revert Hs. generalize (shape l). patterns.
    - split; [revert Hs; generalize (shape l); patterns|].
      intros H. destruct (Hwf H) as [[a Ha] _]. done. }
  destruct (_ && _).
  { rewrite run_bind.
    destruct (handle_messages_patterns E u st) as [Hs Hwf].
    destruct (handle_messages E u st) as [[[a|e] st'] l]; simpl in *.
    - rewrite app_nil_r. split; [|done].
      revert Hs. generalize (shape l). patterns.
    - split; [revert Hs; generalize (shape l); patterns|].
      intros H. destruct (Hwf H) as [[a Ha] _]. done. }
  simpl. split; [patterns|done].
Qed.

Lemma shape_nil l : shape l = [] -> l = [].
Proof. by destruct l. Qed.

Lemma shape_cons l k ks :
  shape l = k :: ks -> exists c l', l = c :: l' /\ kind_of c = k /\ shape l' = ks.
Proof.
  destruct l as [|c l']; [done|]. simpl. intros [= <- <-]. by exists c, l'.
Qed.

Ltac inv_shape :=
  repeat match goal with
    | H : shape ?l = [] |- _ =>
        apply shape_nil in H; first [subst l | rewrite H in *; clear H]
    | H : shape ?l = _ :: _ |- _ =>
        let c := fresh "c" in let l' := fresh "l" in
        let Hk := fresh "Hk" in
        apply shape_cons in H as (c & l' & -> & Hk & H);
        destruct c; simpl in Hk; try discriminate Hk;
        try (injection Hk as ->)
    end.

Lemma update_patterns_inv u (l : list call) :
  shape l ∈ update_patterns u ->
  l = []
  \/ (exists r, l = [Send_message (effective_chat_id u) r])
  \/ (exists pre r,
        l = pre ++ [Send_message (effective_chat_id u) r]
        /\ shape (pre ++ [Send_message (effective_chat_id u) r])
           ∈ answered_patterns u
        /\ List.filter is_send pre = []
        /\ (length (List.filter is_insert pre) <= 1)%nat
        /\ (List.filter is_generate pre = []
            \/ exists rest,
                 pre = Generate_content (message_text u) :: rest
                 /\ List.filter is_generate rest = [])).
Proof.
  unfold update_patterns.
  intros H. apply elem_of_cons in H as [H|H]; [inv_shape; by left|].
  apply elem_of_cons in H as [H|H];
    [inv_shape; right; left; by eexists|].
  right. right. pose proof H as Hin. unfold answered_patterns in H.
  repeat (apply elem_of_cons in H as [H|H]); [..|by apply elem_of_nil in H];
    apply (f_equal (@length kind)) in H as Hlen;
    unfold shape in Hlen; rewrite length_map in Hlen; simpl in Hlen;
    inv_shape.
  - eexists [_], _. split; [done|]; split; [done|]; split; [done|]; split; [simpl; lia|by left].
  - eexists [_], _. split; [done|]; split; [done|]; split; [done|]; split; [simpl; lia|right; by eexists].
  - eexists [_; _; _], _.
    split; [done|]; split; [done|]; split; [done|]; split; [simpl; lia|right; by eexists].
  - eexists [_; _], _.
    split; [done|]; split; [done|]; split; [done|]; split; [simpl; lia|right; by eexists].
  - eexists [_; _; _; _; _], _.
    split; [done|]; split; [done|]; split; [done|]; split; [simpl; lia|right; by eexists].
  - eexists [_; _], _.
    split; [done|]; split; [done|]; split; [done|]; split; [simpl; lia|right; by eexists].
Qed.

Lemma process_update_log E u st :
  (process_update E u st).2 = (process_group E handlers u st).2.
Proof. done. Qed.

(** X2. While one update is processed at most one event is created,
    whatever the storage and the answers of the services. *)
Theorem at_most_one_event_per_update
    (E : env) (u : update) (st : gmap Z context_data) :
  (length (List.filter is_insert (process_update E u st).2) <= 1)%nat.
Proof.
  rewrite process_update_log.
  destruct (process_group_patterns E u st) as [Hs _].
  apply update_patterns_inv in Hs as [->|[[r ->]|(pre & r & -> & _ & _ & Hi & _)]];
    simpl; [lia..|].
  rewrite List.filter_app, length_app. simpl. lia.
Qed.

Lemma process_update_command E u st c :
  bot_command u = Some c ->
  process_update E u st =
    (st, if bool_decide (lower c = lit "start")
         then [Send_message (effective_chat_id u) MsgBoasVindas] else []).
Proof.
  intros Hc. unfold process_update, handlers, process_group.
  cbn [check_update callback]. unfold filter_command. rewrite Hc.
  rewrite !andb_false_r. cbn [fmap option_fmap option_map].
  destruct (decide (lower c = lit "start")) as [He|Hne].
  - rewrite !bool_decide_eq_true_2 by congruence. by rewrite !run_bind.
  - rewrite !bool_decide_eq_false_2 by congruence. done.
Qed.

Lemma process_update_no_text E u st :
  bot_command u = None -> message_text u = [] ->
  process_update E u st = (st, []).
Proof.
  intros Hc Ht. unfold process_update, handlers, process_group.
  cbn [check_update callback]. unfold filter_command, filter_text.
  rewrite Hc, Ht. done.
Qed.

Lemma follow_up_never_classifies E u st :
  List.filter is_generate (handle_follow_up E u st).2 = [].
Proof.
  destruct (handle_follow_up_patterns E u st) as [Hs _].
  repeat (apply elem_of_cons in Hs as [Hs|Hs]);
    [..|by apply elem_of_nil in Hs]; inv_shape; done.
Qed.

(** X3. The classifier is called at most once per update, before any
    other call, and with the text of the message unchanged.  It is not
    called for a message of digits only, nor for any update of a chat
    whose stored state awaits a title: such a text is not given to the
    language model. *)
Theorem classifier_called_once_first_with_the_text
    (E : env) (u : update) (st : gmap Z context_data) :
  let log := (process_update E u st).2 in
  (List.filter is_generate log = []
   \/ exists rest, log = Generate_content (message_text u) :: rest
                   /\ List.filter is_generate rest = [])
  /\ (regex_digits (message_text u) = true -> List.filter is_generate log = [])
  /\ (forall chosen,
        st !! effective_chat_id u = stored_as (AwaitingTitle chosen) ->
        List.filter is_generate log = []).
Proof.
  intros log. subst log. split; [|split].
  - rewrite process_update_log.
    destruct (process_group_patterns E u st) as [Hs _].
    apply update_patterns_inv in Hs
        as [->|[[r ->]|(pre & r & -> & _ & _ & _ & [Hg|(rest & -> & Hg)])]];
      simpl; auto.
    + left. rewrite List.filter_app, Hg. done.
    + right. eexists. split; [done|]. by rewrite List.filter_app, Hg.
  - intros Hr. destruct (bot_command u) as [c|] eqn:Hc.
    + rewrite (process_update_command E u st c Hc). by case_bool_decide.
    + rewrite process_update_digits by done. apply follow_up_never_classifies.
  - intros chosen Hst. destruct (bot_command u) as [c|] eqn:Hc.
    { rewrite (process_update_command E u st c Hc). by case_bool_decide. }
    destruct (regex_digits (message_text u)) eqn:Hr.
    { by rewrite (digits_dropped_while_awaiting_title E u st chosen). }
    destruct (decide (message_text u = [])) as [Ht|Ht].
    { by rewrite process_update_no_text. }
    by rewrite (title_accepted_unless_digits E u st chosen).
Qed.

(** X4. From a reachable storage no handler raises: the dictionary
    lookups [context_data['suggestions']] and
    [context_data['chosen_time_iso']] always find their key. *)
Theorem handlers_never_raise_key_error
    (E : env) (u : update) (st : gmap Z context_data) :
  reachable st -> (process_group E handlers u st).1.1 = Ok tt.
Proof.
  intros Hr. apply process_group_patterns. by apply reachable_well_formed.
Qed.

Lemma handlers_never_raise_key_error_witness :
  (process_group Demo.ocupado handlers
     (text_update Demo.chat (lit "2"))
     (conversa Demo.ocupado [text_update Demo.chat Demo.AM_I_FREE] ∅).1).1.1
  = Ok tt.
Proof.
  apply handlers_never_raise_key_error.
  apply conversa_reachable. constructor.
Defined.


(** ** What the handlers write into the storage *)

Lemma writes_only_same {A} P (m : M A) :
  (forall st, (m st).1.2 = st) -> writes_only P m.
Proof. intros H st chat c. rewrite H. auto. Qed.

Lemma writes_only_bind {A B} P (m : M A) (f : A -> M B) :
  writes_only P m -> (forall a, writes_only P (f a)) ->
  writes_only P (m ≫= f).
Proof.
  intros Hm Hf st chat c. rewrite run_bind. specialize (Hm st chat c).
  destruct (m st) as [[[a|e] st'] l]; simpl in *; [|done].
  intros H. apply Hf in H as [H|H]; auto.
Qed.

Lemma writes_only_storage_set (P : context_data -> Prop) chat c :
  P c -> writes_only P (storage_set chat c).
Proof.
  intros HP st chat' c'. simpl.
  destruct (decide (chat = chat')) as [->|Hne].
  - rewrite lookup_insert_eq. intros [= <-]. auto.
  - rewrite lookup_insert_ne by done. auto.
Qed.

Lemma writes_only_storage_del P chat : writes_only P (storage_del chat).
Proof.
  intros st chat' c'. simpl. intros H.
  apply lookup_delete_Some in H as [_ H]. auto.
Qed.

Lemma execute_agendamento_free E chat ents st resumo dia inicio fim :
  preparar_agendamento E ents = Some (resumo, dia, inicio, fim) ->
  no_events E inicio fim = true ->
  execute_agendamento E chat ents st =
    (Ok tt, st,
     [Events_list inicio fim; Events_insert resumo inicio fim;
      Send_message chat
        (MsgAgendado resumo dia inicio (html_link E resumo inicio fim))]).
Proof.
  intros Hp Hf. unfold execute_agendamento. rewrite Hp.
  by rewrite !run_bind, run_verificar, Hf.
Qed.

Lemma execute_verificacao_free E chat ents st inicio fim :
  preparar_verificacao E ents = Some (inicio, fim) ->
  no_events E inicio fim = true ->
  execute_verificacao E chat ents st =
    (Ok tt, st, [Events_list inicio fim; Send_message chat (MsgLivre inicio)]).
Proof.
  intros Hp Hf. unfold execute_verificacao. rewrite Hp.
  by rewrite !run_bind, run_verificar, Hf.
Qed.

Lemma writes_only_execute_agendamento E chat ents :
  writes_only numbered_context (execute_agendamento E chat ents).
Proof.
  intros st chat' c.
  destruct (preparar_agendamento E ents) as [[[[r d] i] f]|] eqn:Hp.
  2:{ unfold execute_agendamento. rewrite Hp. simpl. auto. }
  destruct (no_events E i f) eqn:Hf.
  { rewrite (execute_agendamento_free E chat ents st r d i f Hp Hf). auto. }
  rewrite (execute_agendamento_busy E chat ents st r d i f Hp Hf).
  destruct (List.filter _ _) as [|x l] eqn:Hk; simpl; [auto|].
  destruct (decide (chat = chat')) as [->|Hne].
  - rewrite lookup_insert_eq. intros [= <-]. right. right.
    exists E, i, (Some r). rewrite Hk. by split.
  - rewrite lookup_insert_ne by done. auto.
Qed.

Lemma writes_only_execute_verificacao E chat ents :
  writes_only numbered_context (execute_verificacao E chat ents).
Proof.
  intros st chat' c.
  destruct (preparar_verificacao E ents) as [[i f]|] eqn:Hp.
  2:{ unfold execute_verificacao. rewrite Hp. simpl. auto. }
  destruct (no_events E i f) eqn:Hf.
  { rewrite (execute_verificacao_free E chat ents st i f Hp Hf). auto. }
  rewrite (execute_verificacao_busy E chat ents st i f Hp Hf).
  destruct (List.filter _ _) as [|x l] eqn:Hk; simpl; [auto|].
  destruct (decide (chat = chat')) as [->|Hne].
  - rewrite lookup_insert_eq. intros [= <-]. right. right.
    exists E, i, None. rewrite Hk. by split.
  - rewrite lookup_insert_ne by done. auto.
Qed.

Lemma writes_only_decidir E chat t :
  writes_only numbered_context (decidir_e_executar E chat t).
Proof.
  unfold decidir_e_executar.
  apply writes_only_bind; [by apply writes_only_same|].
  intros [d|]; [|by apply writes_only_same].
  destruct (negb _); [by apply writes_only_same|].
  repeat case_bool_decide;
    auto using writes_only_execute_agendamento,
               writes_only_execute_verificacao.
  - unfold execute_consulta.
    destruct (d_consulta d) as [[|c k]|]; try by apply writes_only_same.
    apply writes_only_bind; [by apply writes_only_same|].
    intros [|x l]; by apply writes_only_same.
  - by apply writes_only_same.
Qed.

Lemma writes_only_handle_messages E u :
  writes_only numbered_context (handle_messages E u).
Proof.
  unfold handle_messages.
  apply writes_only_bind; [by apply writes_only_same|]. intros [c|].
  - apply writes_only_bind; [|intros; by apply writes_only_same].
    case_bool_decide; [|apply writes_only_decidir].
    unfold finalizar_com_titulo.
    destruct (chosen_time_iso c); [|by apply writes_only_same].
    apply writes_only_bind; [by apply writes_only_same|]. intros.
    apply writes_only_bind; [apply writes_only_storage_del|]. intros.
    by apply writes_only_same.
  - apply writes_only_bind; [apply writes_only_decidir|].
    intros; by apply writes_only_same.
Qed.

Lemma writes_only_handle_follow_up E u :
  writes_only numbered_context (handle_follow_up E u).
Proof.
  unfold handle_follow_up.
  apply writes_only_bind; [by apply writes_only_same|].
  intros [c|]; [|by apply writes_only_same].
  destruct (_ && _); [|by apply writes_only_same].
  destruct (suggestions c) as [sg|]; [|by apply writes_only_same].
  destruct (sg !! _) as [iso|].
  - destruct (summary c).
    + apply writes_only_bind; [by apply writes_only_same|]. intros.
      apply writes_only_bind; [apply writes_only_storage_del|]. intros.
      apply writes_only_bind; by intros; apply writes_only_same.
    + apply writes_only_bind.
      * apply writes_only_storage_set. left. by exists iso.
      * intros. apply writes_only_bind; by intros; apply writes_only_same.
  - apply writes_only_bind; by intros; apply writes_only_same.
Qed.

Lemma writes_only_process_group E u :
  writes_only numbered_context (process_group E handlers u).
Proof.
  assert (H : forall hs,
             (forall h, h ∈ hs -> writes_only numbered_context (callback h E u)) ->
             writes_only numbered_context (process_group E hs u)).
  { induction hs as [|h hs IH]; intros Hhs; simpl;
      [by apply writes_only_same|].
    destruct (check_update h u).
    - apply writes_only_bind; [apply Hhs; set_solver|].
      intros; by apply writes_only_same.
    - apply IH. intros h' Hh'. apply Hhs. set_solver. }
  apply H. unfold handlers. intros h Hh.
  repeat (apply elem_of_cons in Hh as [->|Hh]); simpl;
    auto using writes_only_handle_follow_up, writes_only_handle_messages.
  - apply writes_only_bind; by intros; apply writes_only_same.
  - by apply elem_of_nil in Hh.
Qed.

Lemma reachable_numbered st chat c :
  reachable st -> st !! chat = Some c -> numbered_context c.
Proof.
  intros Hr. revert chat c. induction Hr as [|E st u _ IH]; intros chat c.
  - by rewrite lookup_empty.
  - intros H. apply (writes_only_process_group E u st chat c) in H as [H|H];
      eauto.
Qed.

(** The free candidates of a start: at most three, each 30, 60 or 90
    minutes after it, in strictly increasing time order. *)
Lemma kept_increasing E inicio :
  let l := List.filter (slot_free E) (candidatos inicio) in
  (length l <= 3)%nat
  /\ (forall a, a ∈ l ->
        utcoffset a = utcoffset inicio
        /\ (wall a = wall inicio + 30 \/ wall a = wall inicio + 60
            \/ wall a = wall inicio + 90))
  /\ (forall i j a b, (i < j)%nat -> l !! i = Some a -> l !! j = Some b ->
        instant a < instant b).
Proof.
  unfold candidatos. simpl.
  destruct (slot_free E (plus_minutes inicio 30)),
           (slot_free E (plus_minutes inicio 60)),
           (slot_free E (plus_minutes inicio 90)); simpl;
    (split; [lia|]); (split; [intros a Ha; set_unfold; intuition (subst; simpl; auto)|]);
    intros [|[|[|i]]] [|[|[|j]]] a b Hij Ha Hb; simpl in *;
    try lia; try discriminate;
    injection Ha as <-; injection Hb as <-;
    unfold instant; simpl; lia.
Qed.

(** X6. In every reachable storage, a stored suggestion dictionary
    comes from a non-empty list of at most three starts in strictly
    increasing time order: its keys are exactly the decimal labels
    1..N of the positions in that list, so a higher label is always a
    later start. *)
Theorem stored_suggestions_are_numbered_in_time_order
    (st : gmap Z context_data) (chat : Z) (c : context_data)
    (sugg : gmap str datetime) :
  reachable st -> st !! chat = Some c -> suggestions c = Some sugg ->
  exists l : list datetime,
    (1 <= length l <= 3)%nat
    /\ (forall k iso, sugg !! k = Some iso <->
          exists j, k = format_int (j + 1) /\ l !! j = Some iso)
    /\ (forall i j a b, (i < j)%nat -> l !! i = Some a -> l !! j = Some b ->
          instant a < instant b).
Proof.
  intros Hr Hst Hs.
  destruct (reachable_numbered st chat c Hr Hst)
    as [[chosen Hc]|(E & inicio & resumo & Hne & Hc)].
  { simpl in Hc. injection Hc as ->. done. }
  set (l := List.filter (slot_free E) (candidatos inicio)) in *.
  assert (sugg = (numerar 0 l ∅ []).1) as ->.
  { destruct resumo; simpl in Hc; injection Hc as ->; simpl in Hs; congruence. }
  destruct (kept_increasing E inicio) as (Hlen & _ & Hinc). fold l in Hlen, Hinc.
  exists l. split; [|split; [|exact Hinc]].
  - destruct l; [done|]. simpl in *. lia.
  - intros k iso. split.
    + intros H. apply numerar_keys in H as [(j & -> & Hj)|H].
      * by exists j.
      * by rewrite lookup_empty in H.
    + intros (j & -> & Hj). by apply (numerar_label l 0 ∅ [] j iso).
Qed.

Lemma stored_suggestions_are_numbered_in_time_order_witness :
  exists l : list datetime,
    (1 <= length l <= 3)%nat
    /\ (forall k iso,
          (<[lit "1" := Demo.local 2025 3 10 14 0]>
             (<[lit "2" := Demo.local 2025 3 10 14 30]> ∅) : gmap str datetime)
            !! k = Some iso <->
          exists j, k = format_int (j + 1) /\ l !! j = Some iso)
    /\ (forall i j a b, (i < j)%nat -> l !! i = Some a -> l !! j = Some b ->
          instant a < instant b).
Proof.
  apply (stored_suggestions_are_numbered_in_time_order
           (conversa Demo.ocupado [text_update Demo.chat Demo.AM_I_FREE] ∅).1
           Demo.chat
           {| action := Some AWAITING_TIME_SELECTION; summary := None;
              suggestions :=
                Some (<[lit "1" := Demo.local 2025 3 10 14 0]>
                        (<[lit "2" := Demo.local 2025 3 10 14 30]> ∅));
              chosen_time_iso := None |}).
  - apply conversa_reachable. constructor.
  - vm_compute. reflexivity.
  - reflexivity.
Defined.

(** ** Selecting a suggestion *)

(** X7. After a verify request stored the numbered list [l], a reply of
    digits is a selection exactly when its stripped text is the decimal
    label of a position of [l]: then the start at that position is
    stored as chosen and the title is asked for; any other digits
    ([0], a label with a leading zero, a number above the length) get
    the invalid-option answer and leave the storage as it is. *)
Theorem selection_accepted_exactly_for_labels
    (E : env) (u : update) (st : gmap Z context_data) (l : list datetime) :
  bot_command u = None ->
  regex_digits (message_text u) = true ->
  st !! effective_chat_id u
    = stored_as (AwaitingSlotSelection None (numerar 0 l ∅ []).1) ->
  (forall j iso,
     l !! j = Some iso -> strip (message_text u) = format_int (j + 1) ->
     process_update E u st =
       (<[effective_chat_id u :=
            {| action := Some AWAITING_TITLE; summary := None;
               suggestions := None; chosen_time_iso := Some iso |}]> st,
        [Send_message (effective_chat_id u) MsgPedirTitulo]))
  /\ ((forall j, (j < length l)%nat ->
         strip (message_text u) <> format_int (j + 1)) ->
      process_update E u st =
        (st, [Send_message (effective_chat_id u) MsgOpcaoInvalida])).
Proof.
  intros Hc Hr Hst. rewrite process_update_digits by done.
  rewrite (follow_up_verify_origin E u st _ Hst)
    by by apply regex_digits_isdigit.
  split.
  - intros j iso Hj Ht. rewrite Ht.
    by rewrite (numerar_label l 0 ∅ [] j iso Hj).
  - intros Hno.
    destruct ((numerar 0 l ∅ []).1 !! strip (message_text u)) as [iso|] eqn:Hk;
      [|done].
    apply numerar_keys in Hk as [(j & Hj & Hl)|Hk].
    + exfalso. apply (Hno j); [by eapply lookup_lt_Some|done].
    + by rewrite lookup_empty in Hk.
Qed.

Lemma selection_accepted_exactly_for_labels_witness :
  let st : gmap Z context_data :=
    {[ Demo.chat :=
         {| action := Some AWAITING_TIME_SELECTION; summary := None;
            suggestions :=
              Some (numerar 0 [Demo.local 2025 3 10 14 0] ∅ []).1;
            chosen_time_iso := None |} ]} in
  process_update Demo.livre (text_update Demo.chat (lit "01")) st =
    (st, [Send_message Demo.chat MsgOpcaoInvalida]).
Proof.
  intros st.
  apply (selection_accepted_exactly_for_labels Demo.livre
           (text_update Demo.chat (lit "01")) st
           [Demo.local 2025 3 10 14 0]).
  - reflexivity.
  - reflexivity.
  - vm_compute. reflexivity.
  - intros j Hj. simpl in Hj. assert (j = 0%nat) as -> by lia.
    vm_compute. discriminate.
Defined.

(** X8. A whole negotiation, for a requested start at least 150
    minutes before the end of the datetime range, so that all three
    candidates can be built: a verify request for a busy slot, the reply
    with the label of a free candidate, then a title that is not made
    of digits only.  The reply is answered by the request for a title,
    and the title message creates exactly one event, with that title,
    for the hour starting at the chosen candidate, and removes the
    chat's context.  The calendar is not asked again: the answers the
    services would give at the second and third message play no part. *)
Theorem verify_select_title_books_the_chosen_hour
    (E1 E2 E3 : env) (chat : Z) (ents : option entidades)
    (st : gmap Z context_data) (inicio fim : datetime) (j : nat)
    (iso : datetime) (title : str) :
  wall inicio + 150 <= MAX_WALL ->
  preparar_verificacao E1 ents = Some (inicio, fim) ->
  no_events E1 inicio fim = false ->
  List.filter (slot_free E1) (candidatos inicio) !! j = Some iso ->
  regex_digits title = false -> title <> [] ->
  let st1 := (execute_verificacao E1 chat ents st).1.2 in
  let r2 := process_update E2 (text_update chat (format_int (j + 1))) st1 in
  let r3 := process_update E3 (text_update chat title) r2.1 in
  r2.2 = [Send_message chat MsgPedirTitulo]
  /\ r3.2 = [Events_insert title iso (plus_one_hour iso);
             Send_message chat
               (MsgAgendamentoConfirmado title iso
                  (html_link E3 title iso (plus_one_hour iso)))]
  /\ r3.1 = delete chat st.
Proof.
  intros _ Hp Hb Hj Hd Ht st1 r2 r3.
  set (l := List.filter (slot_free E1) (candidatos inicio)) in *.
  assert (Hst1 : st1 =
            <[chat := {| action := Some AWAITING_TIME_SELECTION;
                         summary := None;
                         suggestions := Some (numerar 0 l ∅ []).1;
                         chosen_time_iso := None |}]> st).
  { subst st1. rewrite (execute_verificacao_busy E1 chat ents st _ _ Hp Hb).
    fold l. destruct l; [done|done]. }
  assert (Hlab : regex_digits (format_int (j + 1)) = true
                 /\ strip (format_int (j + 1)) = format_int (j + 1)).
  { destruct (kept_increasing E1 inicio) as (Hlen & _). fold l in Hlen.
    apply lookup_lt_Some in Hj.
    destruct j as [|[|[|j]]]; [by vm_compute..|lia]. }
  destruct Hlab as [Hreg Hstrip].
  assert (Hr2 : r2 =
            (<[chat := {| action := Some AWAITING_TITLE; summary := None;
                          suggestions := None;
                          chosen_time_iso := Some iso |}]> st1,
             [Send_message chat MsgPedirTitulo])).
  { subst r2.
    rewrite (process_update_digits E2 (text_update chat _) st1) by done.
    rewrite (follow_up_verify_origin E2 (text_update chat _) st1
               (numerar 0 l ∅ []).1).
    - simpl. rewrite Hstrip.
      by rewrite (numerar_label l 0 ∅ [] j iso Hj).
    - simpl. rewrite Hst1. by rewrite lookup_insert_eq.
    - simpl. rewrite Hstrip.
      apply regex_digits_isdigit in Hreg. by rewrite Hstrip in Hreg. }
  rewrite Hr2. split; [done|]. subst r3. rewrite Hr2. cbn [fst].
  rewrite (title_accepted_unless_digits E3 (text_update chat title) _ iso);
    try done.
  - simpl. split; [done|].
    by rewrite delete_insert_eq, Hst1, delete_insert_eq.
  - simpl. by rewrite lookup_insert_eq.
Qed.

Lemma verify_select_title_books_the_chosen_hour_witness :
  let st1 := (execute_verificacao Demo.ocupado Demo.chat
                (Some {| titulo := None; data := Some (lit "2025-03-10");
                         hora := Some (lit "13:00") |}) ∅).1.2 in
  let r2 := process_update Demo.livre
              (text_update Demo.chat (format_int (1 + 1))) st1 in
  let r3 := process_update Demo.ocupado
              (text_update Demo.chat (lit "Dentist")) r2.1 in
  r2.2 = [Send_message Demo.chat MsgPedirTitulo]
  /\ r3.2 = [Events_insert (lit "Dentist") (Demo.local 2025 3 10 14 30)
               (plus_one_hour (Demo.local 2025 3 10 14 30));
             Send_message Demo.chat
               (MsgAgendamentoConfirmado (lit "Dentist")
                  (Demo.local 2025 3 10 14 30)
                  (html_link Demo.ocupado (lit "Dentist")
                     (Demo.local 2025 3 10 14 30)
                     (plus_one_hour (Demo.local 2025 3 10 14 30))))]
  /\ r3.1 = delete Demo.chat ∅.
Proof.
  apply (verify_select_title_books_the_chosen_hour
           Demo.ocupado Demo.livre Demo.ocupado Demo.chat _ ∅
           (Demo.local 2025 3 10 13 0) (Demo.local 2025 3 10 14 0)
           1 (Demo.local 2025 3 10 14 30) (lit "Dentist")).
  - vm_compute. discriminate.
  - vm_compute. reflexivity.
  - vm_compute. reflexivity.
  - vm_compute. reflexivity.
  - reflexivity.
  - discriminate.
Defined.

(** ** When an event is created by a request *)


(** X10. For a start at least 150 minutes before the end of the
    datetime range, the suggestions are at most three, each is 30, 60
    or 90 minutes after the start with the start's UTC offset, and they
    are returned in strictly increasing time order; the storage is not
    touched. *)
Theorem suggestions_are_later_and_increasing
    (E : env) (start end_ : datetime) (st : gmap Z context_data) :
  wall start + 150 <= MAX_WALL ->
  exists l,
    (sugerir_horarios E start end_ st).1 = (Ok l, st)
    /\ (length l <= 3)%nat
    /\ (forall a, a ∈ l ->
          utcoffset a = utcoffset start
          /\ (wall a = wall start + 30 \/ wall a = wall start + 60
              \/ wall a = wall start + 90))
    /\ (forall i j a b, (i < j)%nat -> l !! i = Some a -> l !! j = Some b ->
          instant a < instant b).
Proof.
  intros _. rewrite sugerir_horarios_run. eexists. split; [done|].
  apply kept_increasing.
Qed.

Lemma suggestions_are_later_and_increasing_witness :
  exists l,
    (sugerir_horarios Demo.ocupado (Demo.local 2025 3 10 13 0)
       (Demo.local 2025 3 10 14 0) ∅).1 = (Ok l, ∅)
    /\ (length l <= 3)%nat.
Proof.
  destruct (suggestions_are_later_and_increasing Demo.ocupado
              (Demo.local 2025 3 10 13 0) (Demo.local 2025 3 10 14 0) ∅)
    as (l & H1 & H2 & _).
  - vm_compute. discriminate.
  - exists l. split; [exact H1|exact H2].
Defined.

(** ** Commands and classifier failures *)



(** X12. When the classifier call fails or returns an empty decision,
    the user is told the request could not be processed; when it
    returns an action other than the three known ones, the user is told
    the request was not understood.  In both cases the classification
    and that message are the only calls and the storage is unchanged. *)
Theorem unclassified_message_gets_generic_answer
    (E : env) (u : update) (st : gmap Z context_data) :
  bot_command u = None -> regex_digits (message_text u) = false ->
  message_text u <> [] ->
  (forall c, st !! effective_chat_id u = Some c ->
             action c <> Some AWAITING_TITLE) ->
  (decision_truthy (gemini E (message_text u)) = false ->
   process_update E u st =
     (st, [Generate_content (message_text u);
           Send_message (effective_chat_id u) MsgNaoProcessou]))
  /\ (forall d,
        gemini E (message_text u) = Some d ->
        decision_truthy (Some d) = true ->
        d_action d <> Some AGENDAR -> d_action d <> Some VERIFICAR ->
        d_action d <> Some CONSULTAR ->
        process_update E u st =
          (st, [Generate_content (message_text u);
                Send_message (effective_chat_id u) MsgNaoEntendi])).
Proof.
  intros Hc Hr Ht Hst.
  assert (Hm : forall log,
             decidir_e_executar E (effective_chat_id u) (message_text u) st
               = (Ok tt, st, log) ->
             process_update E u st = (st, log)).
  { intros log Hd. rewrite process_update_text by done.
    unfold handle_messages. rewrite run_bind. unfold storage_get. simpl.
    destruct (st !! effective_chat_id u) as [c|] eqn:Hl.
    - rewrite run_bind. rewrite bool_decide_eq_false_2 by by apply Hst.
      rewrite Hd. simpl. by rewrite app_nil_r.
    - rewrite run_bind, Hd. simpl. by rewrite app_nil_r. }
  split.
  - intros Hd. apply Hm. unfold decidir_e_executar.
    rewrite run_bind. unfold analisar_e_decidir_acao_com_gemini.
    rewrite run_bind, run_emit. simpl.
    destruct (gemini E (message_text u)) as [d|]; [|done].
    by rewrite Hd.
  - intros d Hg Hd Ha Hv Hq. apply Hm. unfold decidir_e_executar.
    rewrite run_bind. unfold analisar_e_decidir_acao_com_gemini.
    rewrite run_bind, run_emit. simpl. rewrite Hg, Hd. simpl.
    by rewrite !bool_decide_eq_false_2 by done.
Qed.

Lemma unclassified_message_gets_generic_answer_witness :
  process_update Demo.livre (text_update Demo.chat (lit "hello")) ∅ =
    (∅, [Generate_content (lit "hello");
         Send_message Demo.chat MsgNaoProcessou]).
Proof.
  destruct (unclassified_message_gets_generic_answer Demo.livre
              (text_update Demo.chat (lit "hello")) ∅) as [H _].
  - reflexivity.
  - reflexivity.
  - discriminate.
  - intros c Hc. by rewrite lookup_empty in Hc.
  - apply H. reflexivity.
Defined.

(** X13. While a title is awaited for a stored start whose hour ends
    within the datetime range, a text message that is not made of
    decimal digits only is taken whole as the title: exactly one event is
    created, with that text as it was sent, for the hour starting at the
    stored start; the chat's context is deleted and the confirmation
    carries the link of the created event.  Neither the classifier nor
    the availability check is called. *)
Theorem text_while_awaiting_title_is_the_title
    (E : env) (u : update) (st : gmap Z context_data) (chosen : datetime) :
  wall chosen + 60 <= MAX_WALL ->
  bot_command u = None -> regex_digits (message_text u) = false ->
  message_text u <> [] ->
  st !! effective_chat_id u = stored_as (AwaitingTitle chosen) ->
  (process_update E u st).1 = delete (effective_chat_id u) st
  /\ (process_update E u st).2 =
       [Events_insert (message_text u) chosen (plus_one_hour chosen);
        Send_message (effective_chat_id u)
          (MsgAgendamentoConfirmado (message_text u) chosen
             (html_link E (message_text u) chosen (plus_one_hour chosen)))].
Proof.
  intros _ Hc Hr Ht Hst.
  by rewrite (title_accepted_unless_digits E u st chosen).
Qed.

Lemma text_while_awaiting_title_is_the_title_witness :
  let st : gmap Z context_data :=
    {[ Demo.chat :=
         {| action := Some AWAITING_TITLE; summary := None;
            suggestions := None;
            chosen_time_iso := Some (Demo.local 2025 3 10 14 0) |} ]} in
  let u := text_update Demo.chat (lit " 12 ") in
  (process_update Demo.livre u st).1 = delete Demo.chat st
  /\ (process_update Demo.livre u st).2 =
       [Events_insert (lit " 12 ") (Demo.local 2025 3 10 14 0)
          (plus_one_hour (Demo.local 2025 3 10 14 0));
        Send_message Demo.chat
          (MsgAgendamentoConfirmado (lit " 12 ") (Demo.local 2025 3 10 14 0)
             (html_link Demo.livre (lit " 12 ") (Demo.local 2025 3 10 14 0)
                (plus_one_hour (Demo.local 2025 3 10 14 0))))].
Proof.
  intros st u.
  apply (text_while_awaiting_title_is_the_title Demo.livre u st
           (Demo.local 2025 3 10 14 0)).
  - vm_compute. discriminate.
  - reflexivity.
  - reflexivity.
  - discriminate.
  - vm_compute. reflexivity.
Defined.

(** A numeric reply in the reachable storage of scenario B. *)
Lemma selection_with_summary_never_booked_witness :
  let st := (conversa Demo.ocupado
               [text_update Demo.chat Demo.BOOK_LUNCH] ∅).1 in
  process_update Demo.livre (text_update Demo.chat (lit "1")) st = (st, []).
Proof.
  intros st.
  apply (selection_with_summary_never_booked Demo.livre st
           (text_update Demo.chat (lit "1"))
           {| action := None; summary := Some (lit "lunch");
              suggestions :=
                Some (<[lit "1" := Demo.local 2025 3 10 14 0]>
                        (<[lit "2" := Demo.local 2025 3 10 14 30]> ∅));
              chosen_time_iso := None |}).
  - apply conversa_reachable. constructor.
  - reflexivity.
  - reflexivity.
  - vm_compute. reflexivity.
  - by eexists.
Defined.

(** ** The credential flow *)

(** The file after a successful call. *)
Lemma token_file_after_success A token_json :
  match (get_calendar_service A token_json).1.1 with
  | AuthOk creds =>
      ((get_calendar_service A token_json).1.2 = token_json
       /\ cred_valid creds = true
       /\ exists content, token_json = Some content
            /\ from_authorized_user_file A content = Some creds)
      \/ (get_calendar_service A token_json).1.2 = Some (cred_to_json creds)
  | AuthRaise _ => True
  end.
Proof.
  unfold get_calendar_service.
  destruct token_json as [content|]; simpl.
  - destruct (from_authorized_user_file A content) as [creds|] eqn:Hl;
      simpl; [|done].
    destruct (cred_valid creds) eqn:Hv; simpl.
    { left. repeat split; try done. by exists content. }
    destruct (_ && _); simpl.
    + destruct (refresh A creds); simpl; [by right|done].
    + destruct (run_local_server A); simpl; [by right|done].
  - destruct (run_local_server A); simpl; [by right|done].
Qed.

(** X14. [get_calendar_service] rewrites [token.json] only after a
    refresh or a browser flow that succeeded, and then with the JSON of
    the very credentials the service is built with; when the loaded
    credentials are valid it builds the service with them and writes
    nothing; when a step raises, the file is left as it was and no
    service is built. *)
Theorem token_file_matches_credentials_in_use
    (A : auth_env) (token_json : option str) :
  let r := get_calendar_service A token_json in
  match r.1.1 with
  | AuthOk creds =>
      List.filter is_build r.2 = [Build creds]
      /\ ((r.1.2 = token_json /\ List.filter is_write r.2 = []
           /\ cred_valid creds = true
           /\ exists content, token_json = Some content
                /\ from_authorized_user_file A content = Some creds)
          \/ (r.1.2 = Some (cred_to_json creds)
              /\ List.filter is_write r.2 = [Write_token (cred_to_json creds)]))
  | AuthRaise _ =>
      r.1.2 = token_json /\ List.filter is_write r.2 = []
      /\ List.filter is_build r.2 = []
  end.
Proof.
  unfold get_calendar_service.
  destruct token_json as [content|]; simpl.
  - destruct (from_authorized_user_file A content) as [creds|] eqn:Hl;
      simpl; [|done].
    destruct (cred_valid creds) eqn:Hv; simpl.
    { split; [done|]. left. repeat split; try done. by exists content. }
    destruct (_ && _); simpl.
    + destruct (refresh A creds); simpl; [|done]. split; [done|]. by right.
    + destruct (run_local_server A); simpl; [|done]. split; [done|]. by right.
  - destruct (run_local_server A); simpl; [|done]. split; [done|]. by right.
Qed.

(** X15. The two ways of renewing exclude each other, and each has its
    exact condition: the refresh is attempted when the file holds
    credentials that are not valid, are expired and carry a refresh
    token; the browser flow is started when there is no file, or the
    file holds credentials that are not valid and are not expired or
    carry no refresh token. *)
Theorem refresh_and_browser_flow_exclude_each_other
    (A : auth_env) (token_json : option str) :
  let log := (get_calendar_service A token_json).2 in
  ((exists c, Refresh c ∈ log) <->
     exists content c,
       token_json = Some content
       /\ from_authorized_user_file A content = Some c
       /\ cred_valid c = false /\ cred_expired c = true
       /\ truthy (cred_refresh_token c) = true)
  /\ (Run_local_server ∈ log <->
        token_json = None
        \/ exists content c,
             token_json = Some content
             /\ from_authorized_user_file A content = Some c
             /\ cred_valid c = false
             /\ (cred_expired c = false
                 \/ truthy (cred_refresh_token c) = false))
  /\ ~ ((exists c, Refresh c ∈ log) /\ Run_local_server ∈ log).
Proof.
  assert (Hnil : forall x : auth_call, x ∈ @nil auth_call -> False)
    by (intros x Hx; by apply elem_of_nil in Hx).
  assert (H1 : forall x y : auth_call, x ∈ [y] -> x = y)
    by (intros x y Hx; apply elem_of_cons in Hx as [->|Hx];
        [done|by apply elem_of_nil in Hx]).
  assert (H3 : forall x a b c : auth_call,
             x ∈ [a; b; c] -> x = a \/ x = b \/ x = c).
  { intros x a b c Hx. repeat (apply elem_of_cons in Hx as [->|Hx]); auto.
    by apply elem_of_nil in Hx. }
  unfold get_calendar_service.
  destruct token_json as [content|]; simpl.
  2:{ split; [|split].
      - split; [|by intros (? & ? & ? & _)].
        intros [c Hc]. destruct (run_local_server A); simpl in Hc.
        + apply H3 in Hc as [|[|]]; done.
        + by apply H1 in Hc.
      - split; [by left|]. intros _.
        destruct (run_local_server A); simpl; apply elem_of_cons; by left.
      - intros [[c Hc] _]. destruct (run_local_server A); simpl in Hc.
        + apply H3 in Hc as [|[|]]; done.
        + by apply H1 in Hc. }
  destruct (from_authorized_user_file A content) as [creds|] eqn:Hl; simpl.
  2:{ split; [|split].
      - split; [intros [c Hc]; by apply Hnil in Hc|].
        intros (? & ? & [= <-] & ? & _). congruence.
      - split; [intros Hc; by apply Hnil in Hc|].
        intros [|(? & ? & [= <-] & ? & _)]; congruence.
      - intros [[c Hc] _]. by apply Hnil in Hc. }
  destruct (cred_valid creds) eqn:Hv; simpl.
  { split; [|split].
    - split; [intros [c Hc]; by apply H1 in Hc|].
      intros (? & ? & [= <-] & ? & ? & _). congruence.
    - split; [intros Hc; by apply H1 in Hc|].
      intros [|(? & ? & [= <-] & ? & ? & _)]; congruence.
    - intros [[c Hc] _]. by apply H1 in Hc. }
  destruct (cred_expired creds && truthy (cred_refresh_token creds)) eqn:Hb;
    simpl.
  - apply andb_prop in Hb as [He Ht]. split; [|split].
    + split; [intros _; by exists content, creds|]. intros _. exists creds.
      destruct (refresh A creds); simpl; apply elem_of_cons; by left.
    + split.
      * intros Hc. destruct (refresh A creds); simpl in Hc.
        -- apply H3 in Hc as [|[|]]; done.
        -- by apply H1 in Hc.
      * intros [|(? & ? & [= <-] & ? & ? & [|])]; congruence.
    + intros [_ Hc]. destruct (refresh A creds); simpl in Hc.
      * apply H3 in Hc as [|[|]]; done.
      * by apply H1 in Hc.
  - apply andb_false_iff in Hb. split; [|split].
    + split.
      * intros [c Hc]. destruct (run_local_server A); simpl in Hc.
        -- apply H3 in Hc as [|[|]]; done.
        -- by apply H1 in Hc.
      * intros (? & ? & [= <-] & ? & ? & ? & ?). destruct Hb; congruence.
    + split.
      * intros _. right. by exists content, creds.
      * intros _.
        destruct (run_local_server A); simpl; apply elem_of_cons; by left.
    + intros [[c Hc] _]. destruct (run_local_server A); simpl in Hc.
      * apply H3 in Hc as [|[|]]; done.
      * by apply H1 in Hc.
Qed.

(** X16. [autenticacao.main] and [get_calendar_service] do the same to
    the token file: on the same file and the same library answers they
    succeed or raise alike, leave the same file, and take the same
    steps, the final [build] of [get_calendar_service] apart. *)
Theorem main_and_get_calendar_service_agree
    (A : auth_env) (token_json : option str) :
  let m := autenticacao_main A token_json in
  let g := get_calendar_service A token_json in
  m.1.2 = g.1.2
  /\ m.2 = List.filter (fun c => negb (is_build c)) g.2
  /\ match m.1.1, g.1.1 with
     | AuthOk _, AuthOk _ => True
     | AuthRaise e1, AuthRaise e2 => e1 = e2
     | _, _ => False
     end.
Proof.
  unfold autenticacao_main, get_calendar_service.
  destruct token_json as [content|]; simpl.
  - destruct (from_authorized_user_file A content) as [creds|]; simpl; [|done].
    destruct (cred_valid creds); simpl; [done|].
    destruct (_ && _); simpl.
    + by destruct (refresh A creds).
    + by destruct (run_local_server A).
  - by destruct (run_local_server A).
Qed.

(** X17. Once a call has returned valid credentials, a later call on
    the file it left neither refreshes, nor opens the browser, nor
    writes: it builds the service with the same credentials, provided
    the library reads back from a token file the credentials whose JSON
    was written to it. *)
Theorem second_call_reuses_the_token
    (A : auth_env) (token_json : option str) (creds : credentials) :
  (get_calendar_service A token_json).1.1 = AuthOk creds ->
  cred_valid creds = true ->
  from_authorized_user_file A (cred_to_json creds) = Some creds ->
  let token_json' := (get_calendar_service A token_json).1.2 in
  get_calendar_service A token_json' = (AuthOk creds, token_json', [Build creds]).
Proof.
  intros Hok Hv Hrt.
  pose proof (token_file_after_success A token_json) as H.
  rewrite Hok in H.
  destruct H as [(Hf & Hc & content & Ht & Hl)|Hf]; simpl; rewrite Hf.
  - subst token_json. unfold get_calendar_service. by rewrite Hl, Hc.
  - unfold get_calendar_service. by rewrite Hrt, Hv.
Qed.

Lemma second_call_reuses_the_token_witness :
  get_calendar_service DemoAuth.auth
    (get_calendar_service DemoAuth.auth (Some (lit "stale"))).1.2
  = (AuthOk DemoAuth.fresh,
     (get_calendar_service DemoAuth.auth (Some (lit "stale"))).1.2,
     [Build DemoAuth.fresh]).
Proof.
  apply (second_call_reuses_the_token DemoAuth.auth (Some (lit "stale"))
           DemoAuth.fresh); reflexivity.
Defined.

(** ** The timestamp of a query *)

Lemma str_of_uint_digits d : forallb is_ascii_digit (str_of_uint d) = true.
Proof. induction d; simpl; auto. Qed.

Lemma format_int_digits n : forallb is_ascii_digit (format_int n) = true.
Proof. apply str_of_uint_digits. Qed.

Lemma pad2_digits n : forallb is_ascii_digit (pad2 n) = true.
Proof.
  unfold pad2. destruct (_ <? _)%N; simpl; apply format_int_digits.
Qed.

(** A decidable property checked on 0..99 holds below 100. *)
Lemma below_100 (P : N -> Prop) `{forall n, Decision (P n)} :
  bool_decide (Forall P (N.of_nat <$> seq 0 100)) = true ->
  forall n, (n <= 99)%N -> P n.
Proof.
  intros Hall%bool_decide_eq_true n Hn. rewrite Forall_forall in Hall.
  apply Hall. apply list_elem_of_fmap. exists (N.to_nat n).
  split; [by rewrite N2Nat.id|]. apply elem_of_seq. lia.
Qed.

Lemma pad2_length n : (n <= 99)%N -> length (pad2 n) = 2%nat.
Proof. apply (below_100 (fun n => length (pad2 n) = 2%nat)). by vm_compute. Qed.

Lemma pad2_inj a b : (a <= 99)%N -> (b <= 99)%N -> pad2 a = pad2 b -> a = b.
Proof.
  intros Ha Hb.
  assert (Hall : Forall (fun b => pad2 a = pad2 b -> a = b)
                   (N.of_nat <$> seq 0 100)).
  { revert a Ha.
    apply (below_100 (fun a => Forall (fun b => pad2 a = pad2 b -> a = b)
                                 (N.of_nat <$> seq 0 100))).
    by vm_compute. }
  rewrite Forall_forall in Hall. apply Hall.
  apply list_elem_of_fmap. exists (N.to_nat b).
  split; [by rewrite N2Nat.id|]. apply elem_of_seq. lia.
Qed.

Lemma year_length y :
  (1000 <= y <= 9999)%N -> length (format_int (N.to_nat y)) = 4%nat.
Proof.
  intros Hy.
  assert (Hall : Forall (fun n => length (format_int n) = 4%nat)
                   (seq (N.to_nat 1000) (N.to_nat 9000)))
    by (apply (bool_decide_unpack _); vm_compute; exact I).
  rewrite Forall_forall in Hall. apply Hall. apply elem_of_seq. lia.
Qed.

Lemma format_datetime_for_query_parts dt :
  format_datetime_for_query dt =
    format_int (N.to_nat (dt_year dt)) ++ 45%N :: pad2 (dt_month dt) ++ 45%N
      :: pad2 (dt_day dt) ++ 84%N :: pad2 (dt_hour dt) ++ 58%N
      :: pad2 (dt_minute dt) ++ 58%N :: pad2 (dt_second dt) ++ [90%N].
Proof.
  unfold format_datetime_for_query, strftime_seconds. simpl.
  by repeat (rewrite <- app_assoc; simpl).
Qed.

(** X18. For a datetime whose year has four digits, the timestamp is
    twenty characters long: four digits, a hyphen, two digits, a
    hyphen, two digits, [T], two digits, a colon, two digits, a colon,
    two digits and [Z].  It does not depend on the microseconds, and it
    does not depend on the UTC offset either: the wall clock fields are
    labelled [Z] as they are, without conversion. *)
Theorem query_timestamp_has_fixed_shape (dt : py_datetime) :
  in_range dt ->
  (exists Y M D h m s : str,
     format_datetime_for_query dt =
       Y ++ [45%N] ++ M ++ [45%N] ++ D ++ [84%N] ++ h ++ [58%N] ++ m
         ++ [58%N] ++ s ++ [90%N]
     /\ length Y = 4%nat
     /\ Forall (fun x => length x = 2%nat) [M; D; h; m; s]
     /\ Forall (fun x => forallb is_ascii_digit x = true) [Y; M; D; h; m; s])
  /\ length (format_datetime_for_query dt) = 20%nat
  /\ (forall us off,
        format_datetime_for_query
          {| dt_year := dt_year dt; dt_month := dt_month dt;
             dt_day := dt_day dt; dt_hour := dt_hour dt;
             dt_minute := dt_minute dt; dt_second := dt_second dt;
             dt_microsecond := us; dt_utcoffset := off |}
        = format_datetime_for_query dt).
Proof.
  intros (Hy%year_length & Hm & Hd & Hh & Hmi & Hs).
  assert (HM : length (pad2 (dt_month dt)) = 2%nat) by (apply pad2_length; lia).
  assert (HD : length (pad2 (dt_day dt)) = 2%nat) by (apply pad2_length; lia).
  assert (Hh' : length (pad2 (dt_hour dt)) = 2%nat) by (apply pad2_length; lia).
  assert (Hm' : length (pad2 (dt_minute dt)) = 2%nat)
    by (apply pad2_length; lia).
  assert (Hs' : length (pad2 (dt_second dt)) = 2%nat)
    by (apply pad2_length; lia).
  split; [|split].
  - exists (format_int (N.to_nat (dt_year dt))), (pad2 (dt_month dt)), (pad2 (dt_day dt)),
      (pad2 (dt_hour dt)), (pad2 (dt_minute dt)), (pad2 (dt_second dt)).
    split.
    + by rewrite format_datetime_for_query_parts.
    + split; [done|]. split.
      * by repeat constructor.
      * repeat constructor; auto using format_int_digits, pad2_digits.
  - rewrite format_datetime_for_query_parts.
    repeat (rewrite length_app; simpl). lia.
  - done.
Qed.

Lemma query_timestamp_has_fixed_shape_witness :
  length (format_datetime_for_query
            {| dt_year := 2025; dt_month := 3; dt_day := 10; dt_hour := 9;
               dt_minute := 5; dt_second := 0; dt_microsecond := 123456;
               dt_utcoffset := Some (-180) |}) = 20%nat.
Proof.
  apply query_timestamp_has_fixed_shape.
  unfold in_range. simpl. lia.
Defined.

(** X19. Two datetimes with four-digit years that get the same timestamp
    agree on year, month, day, hour, minute and second. *)
Theorem query_timestamp_determines_the_second (dt1 dt2 : py_datetime) :
  in_range dt1 -> in_range dt2 ->
  format_datetime_for_query dt1 = format_datetime_for_query dt2 ->
  dt_year dt1 = dt_year dt2 /\ dt_month dt1 = dt_month dt2
  /\ dt_day dt1 = dt_day dt2 /\ dt_hour dt1 = dt_hour dt2
  /\ dt_minute dt1 = dt_minute dt2 /\ dt_second dt1 = dt_second dt2.
Proof.
  intros (Hy1 & Hm1 & Hd1 & Hh1 & Hmi1 & Hs1)
         (Hy2 & Hm2 & Hd2 & Hh2 & Hmi2 & Hs2).
  rewrite !format_datetime_for_query_parts. intros H.
  apply app_inj_1 in H as [Hy H]; [|by rewrite !year_length].
  injection H as H.
  apply app_inj_1 in H as [HM H];
    [|rewrite !pad2_length by lia; done].
  injection H as H.
  apply app_inj_1 in H as [HD H];
    [|rewrite !pad2_length by lia; done].
  injection H as H.
  apply app_inj_1 in H as [Hh H];
    [|rewrite !pad2_length by lia; done].
  injection H as H.
  apply app_inj_1 in H as [Hmi H];
    [|rewrite !pad2_length by lia; done].
  injection H as H.
  apply app_inj_1 in H as [Hs _];
    [|rewrite !pad2_length by lia; done].
  apply format_int_inj, N2Nat.inj in Hy.
  repeat split; [exact Hy|apply pad2_inj; (lia || assumption)..].
Qed.

Lemma query_timestamp_determines_the_second_witness :
  let dt us := {| dt_year := 2025; dt_month := 3; dt_day := 10; dt_hour := 9;
                  dt_minute := 5; dt_second := 0; dt_microsecond := us;
                  dt_utcoffset := None |} in
  dt_second (dt 1%N) = dt_second (dt 2%N).
Proof.
  intros dt.
  apply (query_timestamp_determines_the_second (dt 1%N) (dt 2%N)).
  - unfold in_range. simpl. lia.
  - unfold in_range. simpl. lia.
  - reflexivity.
Defined.

(** ** The rows of a query *)

Lemma formatar_evento_ok exibir event row :
  formatar_evento exibir event = QOk row <->
  item_summary event = Some (ev_titulo row)
  /\ exists st s,
       item_start event = Some st
       /\ (start_dateTime st = Some s
           \/ (start_dateTime st = None /\ start_date st = Some s))
       /\ exibir s = Some (ev_data_hora row).
Proof.
  unfold formatar_evento. split.
  - destruct (item_start event) as [st|]; [|done].
    destruct (start_dateTime st) as [s|] eqn:Hdt.
    + destruct (exibir s) as [dh|] eqn:He; [|done].
      destruct (item_summary event) as [t|]; [|done].
      intros [= <-]. split; [done|]. exists st, s. auto.
    + destruct (start_date st) as [s|] eqn:Hd; [|done].
      destruct (exibir s) as [dh|] eqn:He; [|done].
      destruct (item_summary event) as [t|]; [|done].
      intros [= <-]. split; [done|]. exists st, s. auto.
  - intros (Ht & st & s & -> & [Hs|[Hn Hs]] & He).
    + rewrite Hs, He, Ht. by destruct row.
    + rewrite Hn, Hs, He, Ht. by destruct row.
Qed.

Lemma formatar_eventos_acc exibir events : forall acc,
  match formatar_eventos exibir events acc with
  | QOk rows =>
      exists rows', rows = acc ++ rows'
        /\ Forall2 (fun event row => formatar_evento exibir event = QOk row)
             events rows'
  | QRaise e =>
      exists event, event ∈ events /\ formatar_evento exibir event = QRaise e
  end.
Proof.
  induction events as [|event rest IH]; intros acc; simpl.
  - exists []. by rewrite app_nil_r.
  - destruct (formatar_evento exibir event) as [row|e] eqn:Hev.
    + specialize (IH (acc ++ [row])).
      destruct (formatar_eventos exibir rest (acc ++ [row])) as [rows|e].
      * destruct IH as (rows' & -> & HF). exists (row :: rows').
        split; [by rewrite <- app_assoc|by constructor].
      * destruct IH as (ev & Hin & Hr). exists ev. split; [set_solver|done].
    + exists event. split; [set_solver|done].
Qed.

Lemma processar_resposta_rows exibir events :
  match processar_resposta exibir events with
  | QOk rows =>
      Forall2 (fun event row => formatar_evento exibir event = QOk row)
        events rows
  | QRaise e =>
      exists event, event ∈ events /\ formatar_evento exibir event = QRaise e
  end.
Proof.
  unfold processar_resposta. destruct events as [|event rest]; [constructor|].
  pose proof (formatar_eventos_acc exibir (event :: rest) []) as H.
  destruct (formatar_eventos exibir (event :: rest) []) as [rows|e]; [|done].
  by destruct H as (rows' & -> & HF).
Qed.

(** X20. When the formatting of a query answer succeeds, there is one
    row per item, in the order of the answer; each row has the item's
    summary as its title and shows the item's ['dateTime'] or, only when
    that key is absent, its ['date'].  When it raises, some item of the
    answer lacks its start, a parsable start string, or its summary. *)
Theorem query_rows_follow_the_answer
    (exibir : str -> option str) (events : list item) :
  match processar_resposta exibir events with
  | QOk rows =>
      Forall2
        (fun event row =>
           item_summary event = Some (ev_titulo row)
           /\ exists st s,
                item_start event = Some st
                /\ (start_dateTime st = Some s
                    \/ (start_dateTime st = None /\ start_date st = Some s))
                /\ exibir s = Some (ev_data_hora row))
        events rows
  | QRaise e =>
      exists event,
        event ∈ events /\ formatar_evento exibir event = QRaise e
  end.
Proof.
  pose proof (processar_resposta_rows exibir events) as H.
  destruct (processar_resposta exibir events) as [rows|e]; [|done].
  eapply Forall2_impl; [exact H|].
  intros ev row Hr. by apply formatar_evento_ok.
Qed.

(** X21. One event without a summary anywhere in the answer makes the
    whole query raise, so that no row at all is returned, whatever the
    other events are. *)
Theorem untitled_event_fails_the_whole_query
    (exibir : str -> option str) (events : list item) (event : item) :
  event ∈ events -> item_summary event = None ->
  exists e, processar_resposta exibir events = QRaise e.
Proof.
  intros Hin Hs.
  pose proof (processar_resposta_rows exibir events) as H.
  destruct (processar_resposta exibir events) as [rows|e]; [|by exists e].
  exfalso. apply list_elem_of_lookup in Hin as [i Hi].
  destruct (Forall2_lookup_l _ _ _ _ _ H Hi) as (row & _ & Hr).
  apply formatar_evento_ok in Hr as [Ht _]. congruence.
Qed.

Lemma untitled_event_fails_the_whole_query_witness :
  exists e,
    processar_resposta (fun s => Some s)
      [ {| item_summary := Some (lit "lunch");
           item_start := Some {| start_dateTime := Some (lit "t1");
                                 start_date := None |} |};
        {| item_summary := None;
           item_start := Some {| start_dateTime := None;
                                 start_date := Some (lit "d2") |} |} ]
    = QRaise e.
Proof.
  apply (untitled_event_fails_the_whole_query _ _
           {| item_summary := None;
              item_start := Some {| start_dateTime := None;
                                    start_date := Some (lit "d2") |} |}).
  - apply elem_of_cons. right. apply elem_of_cons. by left.
  - reflexivity.
Defined.

(** ** Normalized keywords *)

Lemma lower_char_idem c : lower_char (lower_char c) = lower_char c.
Proof.
  unfold lower_char. destruct ((65 <=? c) && (c <=? 90))%N eqn:Hb.
  - apply andb_prop in Hb as [H1 H2]. apply N.leb_le in H1, H2.
    destruct ((65 <=? c + 32) && (c + 32 <=? 90))%N eqn:Hb'; [|done].
    apply andb_prop in Hb' as [H3 H4]. apply N.leb_le in H3, H4. lia.
  - by rewrite Hb.
Qed.

Lemma encode_ascii_ignore_id s :
  Forall (fun c => (c < 128)%N) s -> encode_ascii_ignore s = s.
Proof.
  unfold encode_ascii_ignore. induction 1 as [|c s Hc _ IH]; simpl; [done|].
  apply N.ltb_lt in Hc. by rewrite Hc, IH.
Qed.

(** X22. Normalizing is idempotent, given that the canonical
    decomposition leaves ASCII strings unchanged: a keyword that has
    been normalized is its own normal form. *)
Theorem normalize_keyword_idempotent (E : env) (keyword : str) :
  (forall s, Forall (fun c => (c < 128)%N) s -> nfd E s = s) ->
  normalize_keyword E (normalize_keyword E keyword)
  = normalize_keyword E keyword.
Proof.
  intros Hnfd.
  assert (Ha : Forall (fun c => (c < 128)%N) (normalize_keyword E keyword)).
  { eapply Forall_impl; [apply normalize_keyword_ascii_lower|].
    by intros c [H _]. }
  unfold normalize_keyword at 1. rewrite (Hnfd _ Ha).
  rewrite (encode_ascii_ignore_id _ Ha).
  unfold normalize_keyword, lower. rewrite List.map_map.
  apply List.map_ext. intros c. apply lower_char_idem.
Qed.

Lemma nfd_demo_ascii s :
  Forall (fun c => (c < 128)%N) s -> Demo.nfd_demo s = s.
Proof.
  unfold Demo.nfd_demo. induction 1 as [|c s Hc _ IH]; simpl; [done|].
  rewrite IH. unfold Demo.nfd_char.
  destruct (N.eqb_spec c 231); [lia|].
  destruct (N.eqb_spec c 233); [lia|].
  destruct (N.eqb_spec c 227); [lia|]. done.
Qed.

Lemma normalize_keyword_idempotent_witness :
  normalize_keyword Demo.livre
    (normalize_keyword Demo.livre [65; 108; 109; 111; 231; 111]%N)
  = normalize_keyword Demo.livre [65; 108; 109; 111; 231; 111]%N.
Proof.
  apply normalize_keyword_idempotent. exact nfd_demo_ascii.
Defined.



(** ** The keyword of a query *)

(** C9. Given that the canonical decomposition leaves ASCII strings
    unchanged, the query string [q] searched for a keyword is: the
    decomposition of the keyword with every code point from 128 on
    dropped and each of the letters A to Z replaced by its lower-case
    letter, the other characters kept in place.  So [q] has no character
    outside ASCII and no upper-case letter; for an ASCII keyword [q] is
    the keyword lower-cased position by position, of the same length;
    and a keyword already in ASCII lower case is searched unchanged.
    For a keyword that is not empty the first call made is the calendar
    search with [q], before anything is sent to the chat.  For an absent
    or empty keyword the only call is the could-not-extract-keyword
    message: the calendar is not called. *)
Theorem query_normalizes_keyword_and_skips_empty
    (E : env) (chat_id : Z) (keyword : str) (st : gmap Z context_data) :
  (forall s, Forall (fun c => (c < 128)%N) s -> nfd E s = s) ->
  let q := normalize_keyword E keyword in
  q = List.map (fun c => if ((65 <=? c) && (c <=? 90))%N then (c + 32)%N else c)
        (List.filter (fun c => (c <? 128)%N) (nfd E keyword))
  /\ ascii_lower_case q
  /\ (Forall (fun c => (c < 128)%N) keyword ->
        length q = length keyword
        /\ forall i c, keyword !! i = Some c ->
             q !! i = Some (if ((65 <=? c) && (c <=? 90))%N
                            then (c + 32)%N else c))
  /\ (ascii_lower_case keyword -> q = keyword)
  /\ (keyword <> [] ->
        exists rest,
          (execute_consulta E chat_id (Some keyword) st).2
          = Events_query q :: rest
          /\ List.filter is_calendar rest = [])
  /\ execute_consulta E chat_id (Some []) st =
       (Ok tt, st, [Send_message chat_id MsgSemPalavraChave])
  /\ execute_consulta E chat_id None st =
       (Ok tt, st, [Send_message chat_id MsgSemPalavraChave]).
Proof.
  intros Hnfd q.
  assert (Hascii : Forall (fun c => (c < 128)%N) keyword ->
                   q = List.map lower_char keyword).
  { intros Ha. subst q. unfold normalize_keyword.
    by rewrite (Hnfd _ Ha), (encode_ascii_ignore_id _ Ha). }
  split; [done|].
  split; [apply normalize_keyword_ascii_lower|].
  split.
  { intros Ha. rewrite (Hascii Ha). split; [apply length_map|].
    intros i c Hi. change (List.map lower_char keyword) with (lower_char <$> keyword).
    by rewrite list_lookup_fmap, Hi. }
  split.
  { intros Hl. rewrite Hascii.
    - rewrite <- (List.map_id keyword) at 2. apply List.map_ext_in.
      intros c Hc. unfold ascii_lower_case in Hl.
      rewrite List.Forall_forall in Hl.
      destruct (Hl c Hc) as [_ Hn]. unfold lower_char.
      destruct ((65 <=? c) && (c <=? 90))%N eqn:Hb; [|done].
      apply andb_prop in Hb as [H1 H2]. apply N.leb_le in H1, H2. lia.
    - eapply Forall_impl; [exact Hl|]. by intros c [H _]. }
  split; [|done].
  intros Hne. destruct keyword as [|c k]; [done|].
  unfold execute_consulta, obter_eventos_por_palavra_chave.
  cbv beta iota. rewrite !run_bind, run_emit. fold q. simpl.
  destruct (query_rows E q); eexists; simpl; split; done.
Qed.

(** Scenario E: the keyword [lunch] is searched as [lunch], and the
    search comes first. *)
Lemma query_normalizes_keyword_and_skips_empty_witness :
  exists rest,
    (execute_consulta Demo.livre Demo.chat (Some (lit "lunch")) ∅).2
    = Events_query (lit "lunch") :: rest.
Proof.
  destruct (query_normalizes_keyword_and_skips_empty Demo.livre Demo.chat
              (lit "lunch") ∅ nfd_demo_ascii) as (_ & _ & _ & _ & H & _).
  destruct H as (rest & H & _); [discriminate|].
  exists rest. exact H.
Defined.

(** ** Selections are compared as strings *)

(** In the storage a verify request leaves in scenario C, the label 1 is
    stored with 14:00.  The reply [01] is a bare integer of value 1, yet
    it is answered with the invalid-option message and the stored state
    stays as it was: no title is asked for. *)
Lemma leading_zero_selection_is_refused :
  let st := (conversa Demo.ocupado [text_update Demo.chat Demo.AM_I_FREE] ∅).1 in
  let sugg := <[lit "1" := Demo.local 2025 3 10 14 0]>
                (<[lit "2" := Demo.local 2025 3 10 14 30]> ∅) in
  let u := text_update Demo.chat (lit "01") in
  st !! Demo.chat = stored_as (AwaitingSlotSelection None sugg)
  /\ regex_digits (message_text u) = true
  /\ Demo.int_ascii (message_text u) = Some 1
  /\ sugg !! format_int 1 = Some (Demo.local 2025 3 10 14 0)
  /\ process_update Demo.ocupado u st =
       (st, [Send_message Demo.chat MsgOpcaoInvalida])
  /\ (process_update Demo.ocupado u st).1 !! Demo.chat
       <> stored_as (AwaitingTitle (Demo.local 2025 3 10 14 0)).
Proof.
  repeat split; try (vm_compute; reflexivity).
  vm_compute. discriminate.
Qed.
